(** * strace-perfetto: a shallow embedding of the trace converter

    The development follows the Go sources:
    - [events.go]: the line grammars, [Event], [NewEvent], [convertTS],
      [convertID], [merge];
    - [main.go]: the scanning loop with its pending table, the two
      ancestry passes, the metadata and flow synthesis;
    - [resources.go]: the resource sampler.

    Go's [int] is the 64-bit signed integer and [uint64] the 64-bit
    unsigned one; both are carried by [Z] with the wrap-around written
    out.  Go strings are carried by [string]; the tracer escapes every
    byte outside ASCII, so one [ascii] stands for one character of a
    log line. *)

From Stdlib Require Import ZArith List Ascii String Bool Lia.
From Stdlib Require Import Floats.SpecFloat.
From Stdlib Require Import Sorting.Sorted.
From stdpp Require Import base option list gmap strings pretty.

Local Open Scope Z_scope.

(** ** Outcomes of fallible code *)

(** [Fatal] is [log.Fatal] (the process exits), [Panic] a run-time panic
    (index out of range, nil dereference).  [OutOfFuel] is only used by
    bounded loops of the model and is shown unreachable. *)
Inductive result (A : Type) : Type :=
| Ok (a : A)
| Fatal
| Panic
| OutOfFuel.
Arguments Ok {A} a.
Arguments Fatal {A}.
Arguments Panic {A}.
Arguments OutOfFuel {A}.

#[global] Instance result_bind : MBind result := λ A B f x,
  match x with
  | Ok a => f a
  | Fatal => Fatal
  | Panic => Panic
  | OutOfFuel => OutOfFuel
  end.
#[global] Instance result_ret : MRet result := λ A a, Ok a.

(** ** Machine integers *)

Definition minInt : Z := - 2 ^ 63.
Definition maxInt : Z := 2 ^ 63 - 1.

(** Two's-complement wrap-around of [int] arithmetic. *)
Definition wrapInt (z : Z) : Z := (z + 2 ^ 63) mod 2 ^ 64 - 2 ^ 63.

(** Wrap-around of [uint64] arithmetic. *)
Definition wrapUint64 (z : Z) : Z := z mod 2 ^ 64.

Definition inInt (z : Z) : Prop := minInt ≤ z ≤ maxInt.

(** ** The pieces of [strings] and [strconv] the program calls *)

Module strings.

(** [strings.HasPrefix(s, prefix)] *)
Fixpoint HasPrefix (s pre : string) : bool :=
  match pre, s with
  | EmptyString, _ => true
  | String a pre', String b s' => if Ascii.eqb a b then HasPrefix s' pre' else false
  | String _ _, EmptyString => false
  end.

(** [strings.Contains(s, substr)] *)
Fixpoint Contains (s substr : string) : bool :=
  HasPrefix s substr ||
  match s with
  | EmptyString => false
  | String _ s' => Contains s' substr
  end.

(** [strings.Split(s, sep)] for a one-character separator: the pieces
    between the occurrences of [sep], always at least one piece. *)
Fixpoint Split (s : string) (sep : ascii) : list string :=
  match s with
  | EmptyString => [EmptyString]
  | String a s' =>
      if Ascii.eqb a sep then EmptyString :: Split s' sep
      else match Split s' sep with
           | p :: ps => String a p :: ps
           | [] => [String a EmptyString]
           end
  end.

End strings.

Module strconv.

Definition digitVal (a : ascii) : option Z :=
  let n := Z.of_N (N_of_ascii a) in
  if (48 <=? n) && (n <=? 57) then Some (n - 48) else None.

Fixpoint parseDigits (acc : Z) (s : string) : option Z :=
  match s with
  | EmptyString => Some acc
  | String a s' =>
      match digitVal a with
      | Some d => parseDigits (acc * 10 + d) s'
      | None => None
      end
  end.

(** [strconv.Atoi]: an optional sign, then one or more decimal digits;
    [None] stands for a non-nil error (syntax or range). *)
Definition Atoi (s : string) : option Z :=
  let '(neg, body) :=
    match s with
    | String "-"%char r => (true, r)
    | String "+"%char r => (false, r)
    | _ => (false, s)
    end in
  match body with
  | EmptyString => None
  | _ =>
      match parseDigits 0 body with
      | Some n =>
          let v := if neg then - n else n in
          if (minInt <=? v) && (v <=? maxInt) then Some v else None
      | None => None
      end
  end.

(** [strconv.Itoa]: the decimal notation of an [int]. *)
Definition Itoa (z : Z) : string := pretty z.

End strconv.

(** ** Regular expressions

    The grammars are anchored at the start of the line ([^]) and not at
    its end.  The matcher is the backtracking one: a greedy repetition
    takes as many iterations as it can and gives them back one by one,
    an alternation tries its left branch first, and a capture group that
    is repeated keeps the text of its last iteration.  These are the
    leftmost-first submatch rules of Go's [regexp] package.  *)

Module regexp.

Inductive re : Type :=
| Eps
| Cls (p : ascii → bool)
| Seq (r1 r2 : re)
| Alt (r1 r2 : re)
| Opt (r : re)
| Star (r : re)
| Grp (n : nat) (r : re).

(** One or more, greedy. *)
Definition Plus (r : re) : re := Seq r (Star r).

Definition caps : Type := list (nat * list ascii).

Fixpoint capture (n : nat) (c : caps) : option (list ascii) :=
  match c with
  | [] => None
  | (m, x) :: c' => if Nat.eqb m n then Some x else capture n c'
  end.

Definition answer : Type := option (list ascii * caps).

(** The iterations of a greedy repetition whose body is matched by
    [body]: at most [n] of them, each one consuming input. *)
Fixpoint starLoop (body : list ascii → caps → (list ascii → caps → answer) → answer)
    (k : list ascii → caps → answer) (n : nat) (s : list ascii) (c : caps)
    {struct n} : answer :=
  match n with
  | O => k s c
  | S n' =>
      match body s c
              (fun s' c' =>
                 if (length s' <? length s)%nat then starLoop body k n' s' c'
                 else None) with
      | Some x => Some x
      | None => k s c
      end
  end.

(** [rmatch r s c k]: match [r] at the front of [s] with the captures
    [c] so far, and hand the rest of the input to [k].  An iteration
    of a repetition has to consume input; the bodies of all
    repetitions in the grammars below do. *)
Fixpoint rmatch (r : re) (s : list ascii) (c : caps)
    (k : list ascii → caps → answer) {struct r} : answer :=
  match r with
  | Eps => k s c
  | Cls p =>
      match s with
      | a :: s' => if p a then k s' c else None
      | [] => None
      end
  | Seq r1 r2 => rmatch r1 s c (fun s' c' => rmatch r2 s' c' k)
  | Alt r1 r2 =>
      match rmatch r1 s c k with
      | Some x => Some x
      | None => rmatch r2 s c k
      end
  | Opt r1 =>
      match rmatch r1 s c k with
      | Some x => Some x
      | None => k s c
      end
  | Star r1 => starLoop (rmatch r1) k (length s) s c
  | Grp n r1 =>
      rmatch r1 s c
        (fun s' c' => k s' ((n, take (length s - length s') s) :: c'))
  end.

Definition run (r : re) (s : string) : answer :=
  rmatch r (list_ascii_of_string s) [] (fun s' c' => Some (s', c')).

(** [Regexp.MatchString] *)
Definition MatchString (r : re) (s : string) : bool :=
  match run r s with Some _ => true | None => false end.

(** [Regexp.FindStringSubmatch] for an expression with [ngroups]
    capture groups: the matched text followed by the text of every
    group (empty for a group that took no part); [[]] is the nil slice
    of a failed match. *)
Definition FindStringSubmatch (r : re) (ngroups : nat) (s : string) : list string :=
  let l := list_ascii_of_string s in
  match run r s with
  | None => []
  | Some (s', c') =>
      string_of_list_ascii (take (length l - length s') l)
      :: map (fun i => string_of_list_ascii (default [] (capture i c')))
             (seq 1 ngroups)
  end.

(** [Regexp.FindAllStringSubmatch(s, -1)]: every grammar starts
    with [^], so there is no second match after the one at offset 0. *)
Definition FindAllStringSubmatch (r : re) (ngroups : nat) (s : string) : list (list string) :=
  match FindStringSubmatch r ngroups s with
  | [] => []
  | g => [g]
  end.

(** Character classes. *)
Definition chr (a : ascii) : re := Cls (Ascii.eqb a).
Definition code (a : ascii) : N := N_of_ascii a.
Definition isDigit (a : ascii) : bool := ((48 <=? code a) && (code a <=? 57))%N.
Definition isWord (a : ascii) : bool :=
  (isDigit a
   || ((65 <=? code a) && (code a <=? 90))
   || ((97 <=? code a) && (code a <=? 122))
   || (code a =? 95))%N.
(** [\s] is [[\t\n\f\r ]] *)
Definition isSpace (a : ascii) : bool :=
  ((code a =? 9) || (code a =? 10) || (code a =? 12) || (code a =? 13) || (code a =? 32))%N.
(** [.] is every character but the newline *)
Definition isAny (a : ascii) : bool := negb (code a =? 10)%N.
Definition notQuote (a : ascii) : bool := negb (code a =? 34)%N.

Definition d : re := Cls isDigit.
Definition w : re := Cls isWord.
Definition sp : re := Cls isSpace.
Definition any : re := Cls isAny.

(** A literal string. *)
Fixpoint Lit (s : string) : re :=
  match s with
  | EmptyString => Eps
  | String a EmptyString => chr a
  | String a s' => Seq (chr a) (Lit s')
  end.

Fixpoint seqs (rs : list re) : re :=
  match rs with
  | [] => Eps
  | [r] => r
  | r :: rs' => Seq r (seqs rs')
  end.

(** The texts an expression matches, and the texts its group [n] can
    hold after a match. *)
Inductive Lang : re → list ascii → Prop :=
| Lang_Eps : Lang Eps []
| Lang_Cls p a : p a = true → Lang (Cls p) [a]
| Lang_Seq r1 r2 x y : Lang r1 x → Lang r2 y → Lang (Seq r1 r2) (x ++ y)
| Lang_AltL r1 r2 x : Lang r1 x → Lang (Alt r1 r2) x
| Lang_AltR r1 r2 x : Lang r2 x → Lang (Alt r1 r2) x
| Lang_OptNone r : Lang (Opt r) []
| Lang_OptSome r x : Lang r x → Lang (Opt r) x
| Lang_StarNil r : Lang (Star r) []
| Lang_StarCons r x y : Lang r x → Lang (Star r) y → Lang (Star r) (x ++ y)
| Lang_Grp n r x : Lang r x → Lang (Grp n r) x.

Inductive Captures : re → nat → list ascii → Prop :=
| Captures_here n r x : Lang r x → Captures (Grp n r) n x
| Captures_Grp n m r x : Captures r m x → Captures (Grp n r) m x
| Captures_SeqL r1 r2 m x : Captures r1 m x → Captures (Seq r1 r2) m x
| Captures_SeqR r1 r2 m x : Captures r2 m x → Captures (Seq r1 r2) m x
| Captures_AltL r1 r2 m x : Captures r1 m x → Captures (Alt r1 r2) m x
| Captures_AltR r1 r2 m x : Captures r2 m x → Captures (Alt r1 r2) m x
| Captures_Opt r m x : Captures r m x → Captures (Opt r) m x
| Captures_Star r m x : Captures r m x → Captures (Star r) m x.

(** The characters that can occur in a text matched by an expression. *)
Fixpoint allows (r : re) (a : ascii) : bool :=
  match r with
  | Eps => false
  | Cls p => p a
  | Seq r1 r2 | Alt r1 r2 => allows r1 a || allows r2 a
  | Opt r1 | Star r1 | Grp _ r1 => allows r1 a
  end.

End regexp.

(** ** The line grammars ([events.go], the [var] block) *)

Module grammar.
Import regexp.

Definition spaces : re := Plus (chr " ").

(** The double-quote character. *)
Definition dquote : ascii := "034"%char.

(** [^(\d+) +(\d+\.\d+) +(\w+)+((?:\(\)|\(.+\))) +\= (.+) +<(.+)>]
    pid, ts, syscall, args, returnValue, duration *)
Definition reSuccessful : re :=
  seqs [ Grp 1 (Plus d); spaces;
         Grp 2 (seqs [Plus d; chr "."; Plus d]); spaces;
         Plus (Grp 3 (Plus w));
         Grp 4 (Alt (Lit "()") (seqs [chr "("; Plus any; chr ")"]));
         spaces; Lit "= ";
         Grp 5 (Plus any); spaces;
         chr "<"; Grp 6 (Plus any); chr ">" ].

(** [^(\d+) +(\d+\.\d+) +(\w+)+((?:\(\)|\(.+\))) +\= (\-.+) +<(.+)>]
    pid, ts, syscall, args, returnValue, duration *)
Definition reFailed : re :=
  seqs [ Grp 1 (Plus d); spaces;
         Grp 2 (seqs [Plus d; chr "."; Plus d]); spaces;
         Plus (Grp 3 (Plus w));
         Grp 4 (Alt (Lit "()") (seqs [chr "("; Plus any; chr ")"]));
         spaces; Lit "= ";
         Grp 5 (Seq (chr "-") (Plus any)); spaces;
         chr "<"; Grp 6 (Plus any); chr ">" ].

(** [^(\d+) +(\d+\.\d+) +(\w+)+(.+)<unfinished ...>]
    pid, ts, syscall, args; the three dots are not escaped *)
Definition reUnfinished : re :=
  seqs [ Grp 1 (Plus d); spaces;
         Grp 2 (seqs [Plus d; chr "."; Plus d]); spaces;
         Plus (Grp 3 (Plus w));
         Grp 4 (Plus any);
         Lit "<unfinished "; any; any; any; chr ">" ].

(** [^(\d+) +(\d+\.\d+) <... +(\w+) resumed>+((?:.|.+\))) +\= (.+) +<(.+)>]
    pid, ts, syscall, args, returnValue, duration *)
Definition reDetached : re :=
  seqs [ Grp 1 (Plus d); spaces;
         Grp 2 (seqs [Plus d; chr "."; Plus d]);
         Lit " <"; any; any; any; spaces;
         Grp 3 (Plus w); Lit " resumed"; Plus (chr ">");
         Grp 4 (Alt any (Seq (Plus any) (chr ")")));
         spaces; Lit "= ";
         Grp 5 (Plus any); spaces;
         chr "<"; Grp 6 (Plus any); chr ">" ].

(** [^(\d+) +(\d+\.\d+) +(\+\+\+\s+(G)\s+\+\+\+)] where the inner
    group [G] is [.] repeated zero or more times;
    pid, ts, exit status *)
Definition reExited : re :=
  seqs [ Grp 1 (Plus d); spaces;
         Grp 2 (seqs [Plus d; chr "."; Plus d]); spaces;
         Grp 3 (seqs [Lit "+++"; Plus sp; Grp 4 (Star any); Plus sp; Lit "+++"]) ].

(** [^\(\Q([^Q]+)\Q, \[\Q([^Q]+)\Q(\.\.\.)?.*] with [Q] written for the
    double quote;   executable name *)
Definition reExecve : re :=
  seqs [ chr "("; chr dquote; Grp 1 (Plus (Cls notQuote)); chr dquote;
         Lit ", ["; chr dquote; Grp 2 (Plus (Cls notQuote)); chr dquote;
         Opt (Grp 3 (Lit "...")); Star any ].

(** [^\(PR_SET_NAME, \Q([^Q]+)\Q] with [Q] written for the double
    quote;   thread name *)
Definition rePrctl : re :=
  seqs [ Lit "(PR_SET_NAME, "; chr dquote; Grp 1 (Plus (Cls notQuote)); chr dquote ].

(** The compiled expressions with their numbers of capture groups. *)
Definition regexpSuccessful : re * nat := (reSuccessful, 6%nat).
Definition regexpFailed : re * nat := (reFailed, 6%nat).
Definition regexpUnfinished : re * nat := (reUnfinished, 4%nat).
Definition regexpDetached : re * nat := (reDetached, 6%nat).
Definition regexpExited : re * nat := (reExited, 4%nat).
Definition regexpExecve : re * nat := (reExecve, 3%nat).
Definition regexpPrctl : re * nat := (rePrctl, 1%nat).

Definition MatchString (r : re * nat) (s : string) : bool :=
  regexp.MatchString (fst r) s.
Definition FindStringSubmatch (r : re * nat) (s : string) : list string :=
  regexp.FindStringSubmatch (fst r) (snd r) s.
Definition FindAllStringSubmatch (r : re * nat) (s : string) : list (list string) :=
  regexp.FindAllStringSubmatch (fst r) (snd r) s.

End grammar.

(** ** Events ([events.go]) *)

(** [Args].  The [Data] map is never assigned by the program: it stays
    nil and is left out.  [CPU] is a [float64]. *)
Record Args : Type := mkArgs {
  A_Name : string;
  A_CPU : spec_float;
  A_Memory : Z;
  A_First : string;
  A_Second : string;
  A_ReturnValue : string;
  A_DetachedDur : Z
}.

(** [Event].  [main.go] also assigns a field [Scope]; see [Scope] below. *)
Record Event : Type := mkEvent {
  fullTrace : string;
  Name : string;
  Cat : string;
  Ph : string;
  Pid : Z;
  Tid : Z;
  Ts : Z;
  Dur : Z;
  Id : Z;
  Scope : string;
  args : Args
}.

(** The zero values of the two structs. *)
Definition zeroArgs : Args := mkArgs EmptyString (S754_zero false) 0 EmptyString EmptyString EmptyString 0.
Definition zeroEvent : Event := mkEvent EmptyString EmptyString EmptyString EmptyString 0 0 0 0 0 EmptyString zeroArgs.

(** Field assignments. *)
Definition setName (e : Event) (v : string) : Event :=
  mkEvent (fullTrace e) v (Cat e) (Ph e) (Pid e) (Tid e) (Ts e) (Dur e) (Id e) (Scope e) (args e).
Definition setCat (e : Event) (v : string) : Event :=
  mkEvent (fullTrace e) (Name e) v (Ph e) (Pid e) (Tid e) (Ts e) (Dur e) (Id e) (Scope e) (args e).
Definition setPh (e : Event) (v : string) : Event :=
  mkEvent (fullTrace e) (Name e) (Cat e) v (Pid e) (Tid e) (Ts e) (Dur e) (Id e) (Scope e) (args e).
Definition setPid (e : Event) (v : Z) : Event :=
  mkEvent (fullTrace e) (Name e) (Cat e) (Ph e) v (Tid e) (Ts e) (Dur e) (Id e) (Scope e) (args e).
Definition setTid (e : Event) (v : Z) : Event :=
  mkEvent (fullTrace e) (Name e) (Cat e) (Ph e) (Pid e) v (Ts e) (Dur e) (Id e) (Scope e) (args e).
Definition setTs (e : Event) (v : Z) : Event :=
  mkEvent (fullTrace e) (Name e) (Cat e) (Ph e) (Pid e) (Tid e) v (Dur e) (Id e) (Scope e) (args e).
Definition setDur (e : Event) (v : Z) : Event :=
  mkEvent (fullTrace e) (Name e) (Cat e) (Ph e) (Pid e) (Tid e) (Ts e) v (Id e) (Scope e) (args e).
Definition setArgs (e : Event) (v : Args) : Event :=
  mkEvent (fullTrace e) (Name e) (Cat e) (Ph e) (Pid e) (Tid e) (Ts e) (Dur e) (Id e) (Scope e) v.
Definition setFirst (e : Event) (v : string) : Event :=
  let a := args e in
  setArgs e (mkArgs (A_Name a) (A_CPU a) (A_Memory a) v (A_Second a) (A_ReturnValue a) (A_DetachedDur a)).
Definition setSecond (e : Event) (v : string) : Event :=
  let a := args e in
  setArgs e (mkArgs (A_Name a) (A_CPU a) (A_Memory a) (A_First a) v (A_ReturnValue a) (A_DetachedDur a)).
Definition setReturnValue (e : Event) (v : string) : Event :=
  let a := args e in
  setArgs e (mkArgs (A_Name a) (A_CPU a) (A_Memory a) (A_First a) (A_Second a) v (A_DetachedDur a)).

(** [groups[i]]: an index out of range panics. *)
Definition index {A : Type} (l : list A) (i : nat) : result A :=
  match l !! i with
  | Some x => Ok x
  | None => Panic
  end.

(** [convertID]: [log.Fatal] when [strconv.Atoi] fails. *)
Definition convertID (id : string) : result Z :=
  match strconv.Atoi id with
  | Some i => Ok i
  | None => Fatal
  end.

(** [convertTS]: a text without a dot converts to 0; otherwise the piece
    before the first dot and the piece after it are put side by side and
    read as one decimal number. *)
Definition convertTS (ts : string) : result Z :=
  let s := strings.Split ts "." in
  if (length s =? 1)%nat then Ok 0
  else
    s0 ← index s 0;
    s1 ← index s 1;
    match strconv.Atoi (s0 +:+ s1) with
    | Some i => Ok i
    | None => Fatal
    end.

(** [Event.getType] as a function of the line. *)
Definition classify (line : string) : string :=
  if grammar.MatchString grammar.regexpFailed line then "failed"
  else if grammar.MatchString grammar.regexpSuccessful line then "successful"
  else if grammar.MatchString grammar.regexpUnfinished line then "unfinished"
  else if grammar.MatchString grammar.regexpDetached line then "detached"
  else if grammar.MatchString grammar.regexpExited line then "lifetime"
  else "other".

Definition getType (e : Event) : Event := setCat e (classify (fullTrace e)).

(** [Event.getReGroups] *)
Definition getReGroups (e : Event) : result (list string) :=
  if String.eqb (Cat e) "successful" then
    index (grammar.FindAllStringSubmatch grammar.regexpSuccessful (fullTrace e)) 0
  else if String.eqb (Cat e) "failed" then
    index (grammar.FindAllStringSubmatch grammar.regexpFailed (fullTrace e)) 0
  else if String.eqb (Cat e) "unfinished" then
    index (grammar.FindAllStringSubmatch grammar.regexpUnfinished (fullTrace e)) 0
  else if String.eqb (Cat e) "detached" then
    index (grammar.FindAllStringSubmatch grammar.regexpDetached (fullTrace e)) 0
  else if String.eqb (Cat e) "lifetime" then
    index (grammar.FindAllStringSubmatch grammar.regexpExited (fullTrace e)) 0
  else Ok [].

(** The [switch e.Cat] of [addFields]. *)
Definition addFieldsByCat (e : Event) (groups : list string) : result Event :=
  if String.eqb (Cat e) "successful" || String.eqb (Cat e) "failed" then
    let e := setPh e "X" in
    g6 ← index groups 6;
    dur ← convertTS g6;
    let e := setDur e dur in
    g4 ← index groups 4;
    let e := setFirst e g4 in
    g5 ← index groups 5;
    Ok (setReturnValue e g5)
  else if String.eqb (Cat e) "detached" then
    let e := setPh e "X" in
    g6 ← index groups 6;
    dur ← convertTS g6;
    let e := setDur e dur in
    g4 ← index groups 4;
    let e := setSecond e g4 in
    g5 ← index groups 5;
    Ok (setReturnValue e g5)
  else if String.eqb (Cat e) "unfinished" then
    g4 ← index groups 4;
    let e := setFirst e g4 in
    Ok (setPh e "B")
  else if String.eqb (Cat e) "lifetime" then
    let e := setName e "lifetime" in
    Ok (setPh e "E")
  else Ok e.

(** [Event.addFields] *)
Definition addFields (e : Event) : result Event :=
  groups ← getReGroups e;
  if negb (length groups =? 0)%nat then
    g3 ← index groups 3;
    let e := setName e g3 in
    g2 ← index groups 2;
    ts ← convertTS g2;
    let e := setTs e ts in
    g1 ← index groups 1;
    pid ← convertID g1;
    let e := setPid e pid in
    tid ← convertID g1;
    let e := setTid e tid in
    g4 ← index groups 4;
    let e := setFirst e g4 in
    addFieldsByCat e groups
  else Ok e.

(** [NewEvent] *)
Definition NewEvent (content : string) : result Event :=
  let event := mkEvent content EmptyString EmptyString EmptyString 0 0 0 0 0 EmptyString zeroArgs in
  let event := getType event in
  addFields event.

(** ** The scanning loop ([main.go], lines 75 to 126) *)

(** The loop state: the emitted events, the pending table of unfinished
    calls and the threads seen so far. *)
Record ScanState : Type := mkScan {
  syscallEvents : list Event;
  preserved : gmap string Event;
  liveThreads : gmap Z bool
}.

Definition scanInit : ScanState := mkScan [] ∅ ∅.

(** [strconv.Itoa(e.Pid) + e.Name] *)
Definition preservedKey (e : Event) : string := strconv.Itoa (Pid e) +:+ Name e.

(** The [lifetime] event put in front of the first event of a thread. *)
Definition lifetimeBegin (e : Event) : Event :=
  mkEvent EmptyString "lifetime" "lifetime" "B" (Pid e) (Tid e) (Ts e) 0 0 EmptyString zeroArgs.

(** The [if !alive] block. *)
Definition markAlive (st : ScanState) (e : Event) : ScanState :=
  let alive := default false (liveThreads st !! Tid e) in
  if negb alive then
    mkScan (syscallEvents st ++ [lifetimeBegin e]) (preserved st)
           (<[Tid e := true]> (liveThreads st))
  else st.

(** The merge of a resumed call with its pending entry [p]. *)
Definition mergeDetached (e p : Event) : Event :=
  let e := setDur e (wrapInt (Ts e - Ts p)) in
  let e := setTs e (Ts p) in
  setFirst e (A_First (args p)).

(** The body of the loop for an event [e] that [NewEvent] returned.  A
    [detached] event whose key is not in the table reads the fields of a
    nil pointer. *)
Definition scanEvent (st : ScanState) (e : Event) : result ScanState :=
  if String.eqb (Cat e) "other" then Ok st
  else
    let st := markAlive st e in
    if String.eqb (Cat e) "unfinished" then
      let k := preservedKey e in
      Ok (mkScan (syscallEvents st) (<[k := e]> (preserved st)) (liveThreads st))
    else if String.eqb (Cat e) "detached" then
      let k := preservedKey e in
      match preserved st !! k with
      | None => Panic
      | Some p =>
          Ok (mkScan (syscallEvents st ++ [mergeDetached e p])
                     (delete k (preserved st)) (liveThreads st))
      end
    else if String.eqb (Cat e) "lifetime" then
      Ok (mkScan (syscallEvents st ++ [e]) (preserved st) (liveThreads st))
    else if String.eqb (Cat e) "other" then Ok st
    else Ok (mkScan (syscallEvents st ++ [e]) (preserved st) (liveThreads st)).

Definition scanLine (st : ScanState) (line : string) : result ScanState :=
  e ← NewEvent line;
  scanEvent st e.

Fixpoint scanLines (st : ScanState) (lines : list string) : result ScanState :=
  match lines with
  | [] => Ok st
  | line :: rest => st' ← scanLine st line; scanLines st' rest
  end.

(** The pending entries left at the end become instant events.  [ps] is
    the sequence in which [range preserved] visits them. *)
Definition flushPreserved (evs : list Event) (ps : list Event) : list Event :=
  evs ++ map (fun p => setPh p "i") ps.

(** ** The two ancestry passes ([main.go], lines 128 to 166)

    [syscallEvents] holds pointers, and a pass assigns [e.Pid] through
    them.  Every pointer in the slice was appended once, for an event
    allocated once, so the slice of records updated position by
    position is the heap the passes work on. *)

Definition isCreation (e : Event) : bool :=
  String.eqb (Name e) "fork" || strings.HasPrefix (Name e) "clone".

Definition sharesAddressSpace (e : Event) : bool :=
  strings.Contains (A_First (args e)) "CLONE_THREAD".

(** [pid, ok := processThreads[e.Tid]; if ok { e.Pid = pid }] *)
Definition rewritePid (processThreads : gmap Z Z) (e : Event) : Event :=
  match processThreads !! Tid e with
  | Some pid => setPid e pid
  | None => e
  end.

(** The [if e.Name == "fork" || ...] block of the first two loops. *)
Definition recordChild (processThreads : gmap Z Z) (e : Event) : gmap Z Z :=
  if isCreation e then
    match strconv.Atoi (A_ReturnValue (args e)) with
    | Some childTid =>
        if sharesAddressSpace e then <[childTid := Pid e]> processThreads
        else <[childTid := childTid]> processThreads
    | None => processThreads
    end
  else processThreads.

Fixpoint ancestryPass (processThreads : gmap Z Z) (evs : list Event)
    : gmap Z Z * list Event :=
  match evs with
  | [] => (processThreads, [])
  | e :: rest =>
      let e' := rewritePid processThreads e in
      let '(pt, rest') := ancestryPass (recordChild processThreads e') rest in
      (pt, e' :: rest')
  end.

(** The seeding of [processThreads] from [syscallEvents[0]] and the two
    passes. *)
Definition reconstruct (evs : list Event) : result (gmap Z Z * list Event) :=
  first ← index evs 0;
  let processThreads : gmap Z Z := <[Tid first := Pid first]> ∅ in
  let '(pt1, evs1) := ancestryPass processThreads evs in
  Ok (ancestryPass pt1 evs1).

(** ** Names, markers and flows ([main.go], lines 167 to 289) *)

Module path.

Fixpoint stripTrailingSlashes (rev_p : list ascii) : list ascii :=
  match rev_p with
  | "/"%char :: r => stripTrailingSlashes r
  | _ => rev_p
  end.

Fixpoint lastElement (rev_p : list ascii) : list ascii :=
  match rev_p with
  | [] => []
  | "/"%char :: _ => []
  | a :: r => a :: lastElement r
  end.

(** [path.Base]; the path is handled from its end. *)
Definition Base (p : string) : string :=
  match p with
  | EmptyString => "."
  | _ =>
      let r := stripTrailingSlashes (rev (list_ascii_of_string p)) in
      match lastElement r with
      | [] => "/"
      | x => string_of_list_ascii (rev x)
      end
  end.

End path.

Module strings_trim.

(** White space of [strings.TrimSpace] among the ASCII characters. *)
Definition isSpace (a : ascii) : bool :=
  let n := N_of_ascii a in
  ((n =? 9) || (n =? 10) || (n =? 11) || (n =? 12) || (n =? 13) || (n =? 32))%N.

Fixpoint trimLeft (l : list ascii) : list ascii :=
  match l with
  | a :: l' => if isSpace a then trimLeft l' else l
  | [] => []
  end.

(** [strings.TrimSpace] *)
Definition TrimSpace (s : string) : string :=
  string_of_list_ascii
    (rev (trimLeft (rev (trimLeft (list_ascii_of_string s))))).

End strings_trim.

(** The state of the third loop. *)
Record SynthState : Type := mkSynth {
  processNames : gmap Z string;
  threadNames : gmap Z string;
  metadataEvents : list Event;
  nextFlowId : Z
}.

Definition synthInit : SynthState := mkSynth ∅ ∅ [] 0.

(** Reading a map of strings gives the empty string for a missing key. *)
Definition nameOf (m : gmap Z string) (k : Z) : string := default EmptyString (m !! k).

(** The events built by the third loop. *)
Definition globalEvent (e : Event) (label : string) : Event :=
  mkEvent EmptyString (strings_trim.TrimSpace label) "event" "i" (Pid e) (Tid e) (Ts e) 0 0 "g" zeroArgs.

Definition flowStart (e : Event) (id : Z) : Event :=
  mkEvent EmptyString (Name e) "clone" "s" (Pid e) (Tid e) (wrapInt (Ts e + 1)) 0 id EmptyString zeroArgs.

Definition flowEnd (e : Event) (childTid : Z) (id : Z) : Event :=
  if sharesAddressSpace e then
    mkEvent EmptyString (Name e) "clone" "f" (Pid e) childTid (wrapInt (Ts e + 1)) 0 id EmptyString zeroArgs
  else
    mkEvent EmptyString (Name e) "clone" "f" childTid childTid (wrapInt (Ts e + 1)) 0 id EmptyString zeroArgs.

Definition nameEvent (kind : string) (pid tid : Z) (name : string) : Event :=
  mkEvent EmptyString kind "__metadata" "M" pid tid 0 0 0 EmptyString
          (mkArgs name (S754_zero false) 0 EmptyString EmptyString EmptyString 0).

Section Synthesis.

(** [regexpGlobalEvent.FindStringSubmatch]: the expression is declared
    in none of the source files, so the function is a parameter. *)
Variable globalEventSubmatch : string → list string.

(** The [prctl] block. *)
Definition synthPrctl (st : SynthState) (e : Event) : result SynthState :=
  if String.eqb (Name e) "prctl" && strings.Contains (A_First (args e)) "PR_SET_NAME" then
    let threadName := A_First (args e) in
    let m := grammar.FindStringSubmatch grammar.regexpPrctl threadName in
    threadName ← (if (length m =? 2)%nat then index m 1 else Ok threadName);
    Ok (mkSynth (processNames st) (<[Tid e := threadName]> (threadNames st))
                (metadataEvents st) (nextFlowId st))
  else Ok st.

(** The [execve] block. *)
Definition synthExecve (st : SynthState) (e : Event) : result SynthState :=
  if String.eqb (Name e) "execve" then
    let processName := A_First (args e) in
    let m := grammar.FindStringSubmatch grammar.regexpExecve processName in
    processName ←
      (if (length m =? 4)%nat then
         m2 ← index m 2;
         m3 ← index m 3;
         if String.eqb m3 "..." then m1 ← index m 1; Ok (path.Base m1)
         else Ok m2
       else Ok processName);
    Ok (mkSynth (<[Pid e := processName]> (processNames st))
                (<[Tid e := processName]> (threadNames st))
                (metadataEvents st) (nextFlowId st))
  else Ok st.

(** The [write] block. *)
Definition synthWrite (st : SynthState) (e : Event) : result SynthState :=
  if String.eqb (Name e) "write" then
    let m := globalEventSubmatch (A_First (args e)) in
    if (length m =? 2)%nat then
      m1 ← index m 1;
      Ok (mkSynth (processNames st) (threadNames st)
                  (metadataEvents st ++ [globalEvent e m1]) (nextFlowId st))
    else Ok st
  else Ok st.

(** The [fork]/[clone] block. *)
Definition synthFlow (st : SynthState) (e : Event) : SynthState :=
  if isCreation e then
    match strconv.Atoi (A_ReturnValue (args e)) with
    | Some childTid =>
        let md := metadataEvents st ++ [flowStart e (nextFlowId st)] in
        let tn := <[childTid := nameOf (threadNames st) (Tid e)]> (threadNames st) in
        let md := md ++ [flowEnd e childTid (nextFlowId st)] in
        let pn :=
          if sharesAddressSpace e then processNames st
          else <[childTid := nameOf (processNames st) (Pid e)]> (processNames st) in
        mkSynth pn tn md (wrapUint64 (nextFlowId st + 1))
    | None => st
    end
  else st.

(** One iteration of the third loop: the event after the assignment
    of [e.Pid], and the new state. *)
Definition synthStep (processThreads : gmap Z Z) (st : SynthState) (e : Event)
    : result (SynthState * Event) :=
  let e := rewritePid processThreads e in
  st ← synthPrctl st e;
  st ← synthExecve st e;
  st ← synthWrite st e;
  Ok (synthFlow st e, e).

Fixpoint synthLoop (processThreads : gmap Z Z) (st : SynthState) (evs : list Event)
    : result (SynthState * list Event) :=
  match evs with
  | [] => Ok (st, [])
  | e :: rest =>
      '(st1, e') ← synthStep processThreads st e;
      '(st2, rest') ← synthLoop processThreads st1 rest;
      Ok (st2, e' :: rest')
  end.

(** The two closing loops; [pns] and [tns] are the sequences in which
    [range] visits the two maps. *)
Definition nameEvents (processThreads : gmap Z Z)
    (pns tns : list (Z * string)) : list Event :=
  map (fun '(pid, name) => nameEvent "process_name" pid pid name) pns
  ++ map (fun '(tid, name) =>
            nameEvent "thread_name" (default 0 (processThreads !! tid)) tid name) tns.

End Synthesis.

(** ** The chronological merge ([events.go], [merge]) *)

(** The first loop of [merge]: the empty lists are taken out and the
    lengths of the others are added up. *)
Fixpoint skipEmpty (events : list (list Event)) : list (list Event) * nat :=
  match events with
  | [] => ([], O)
  | e :: rest =>
      let '(kept, l) := skipEmpty rest in
      if (length e =? 0)%nat then (kept, l) else (e :: kept, (length e + l)%nat)
  end.

(** The inner loop [for i, e := range events[1:]] with the running
    [eventIndex] and [firstEvent]; [rest] is what is left of
    [events[1:]] and [i] the index of its head. *)
Fixpoint pickFirst (rest : list (list Event)) (i : nat) (eventIndex : nat)
    (firstEvent : Event) : result (nat * Event) :=
  match rest with
  | [] => Ok (eventIndex, firstEvent)
  | e :: rest' =>
      e0 ← index e 0;
      if Ts firstEvent <=? Ts e0 then pickFirst rest' (S i) eventIndex firstEvent
      else pickFirst rest' (S i) (i + 1)%nat e0
  end.

(** The loop [for len(events) > 0], unrolled at most [fuel] times. *)
Fixpoint mergeLoop (fuel : nat) (events : list (list Event)) (merged : list Event)
    : result (list Event) :=
  match events with
  | [] => Ok merged
  | _ =>
      match fuel with
      | O => OutOfFuel
      | S fuel' =>
          head ← index events 0;
          firstEvent ← index head 0;
          '(eventIndex, _) ← pickFirst (drop 1 events) 0 0 firstEvent;
          chosen ← index events eventIndex;
          x ← index chosen 0;
          let merged := merged ++ [x] in
          if (length chosen =? 1)%nat then
            mergeLoop fuel' (take eventIndex events ++ drop (eventIndex + 1) events) merged
          else
            mergeLoop fuel' (<[eventIndex := drop 1 chosen]> events) merged
      end
  end.

(** [merge]; the nil slice of a call without arguments is the empty
    list.  The loop is unrolled [l] times, the capacity computed for
    [merged]. *)
Definition merge (events : list (list Event)) : result (list Event) :=
  if (length events =? 0)%nat then Ok []
  else
    let '(events, l) := skipEmpty events in
    mergeLoop l events [].

(** ** Serialization ([TraceEvents.Save] through [encoding/json]) *)

#[local] Set Warnings "-register-all".

Inductive json : Type :=
| JString (s : string)
| JInt (z : Z)
| JFloat (f : spec_float)
| JObject (fields : list (string * json))
| JArray (items : list json).

(** A field tagged [omitempty] is left out when it holds the zero value
    of its type. *)
Definition omitemptyString (key : string) (s : string) : list (string * json) :=
  if String.eqb s EmptyString then [] else [(key, JString s)].

Definition omitemptyInt (key : string) (z : Z) : list (string * json) :=
  if z =? 0 then [] else [(key, JInt z)].

Definition isZeroFloat (f : spec_float) : bool :=
  match f with S754_zero _ => true | _ => false end.

Definition isFiniteFloat (f : spec_float) : bool :=
  match f with S754_zero _ | S754_finite _ _ _ => true | _ => false end.

(** A float that is not finite makes [json.MarshalIndent] fail, and
    [Save] calls [log.Fatalf]. *)
Definition omitemptyFloat (key : string) (f : spec_float) : result (list (string * json)) :=
  if isZeroFloat f then Ok []
  else if isFiniteFloat f then Ok [(key, JFloat f)]
  else Fatal.

Definition marshalArgs (a : Args) : result json :=
  cpu ← omitemptyFloat "cpu" (A_CPU a);
  Ok (JObject (omitemptyString "name" (A_Name a)
               ++ cpu
               ++ omitemptyInt "memory" (A_Memory a)
               ++ omitemptyString "first" (A_First a)
               ++ omitemptyString "second" (A_Second a)
               ++ omitemptyString "returnValue" (A_ReturnValue a)
               ++ omitemptyInt "detachedDur" (A_DetachedDur a))).

(** Modelled from the spec: the declaration of the field [Scope] of
    [Event], which [main.go] assigns, is in none of the source files.
    The spec has the events written in the conventional trace-event
    schema with empty optional fields left out; the key of the scope in
    that schema is [s]. *)
Definition marshalScope (s : string) : list (string * json) :=
  omitemptyString "s" s.

(** The unexported [fullTrace] is not written. *)
Definition marshalEvent (e : Event) : result json :=
  a ← marshalArgs (args e);
  Ok (JObject ([("name", JString (Name e));
                ("cat", JString (Cat e));
                ("ph", JString (Ph e));
                ("pid", JInt (Pid e));
                ("tid", JInt (Tid e));
                ("ts", JInt (Ts e))]
               ++ omitemptyInt "dur" (Dur e)
               ++ omitemptyInt "id" (Id e)
               ++ marshalScope (Scope e)
               ++ [("args", a)])).

Fixpoint marshalEvents (evs : list Event) : result (list json) :=
  match evs with
  | [] => Ok []
  | e :: rest => j ← marshalEvent e; js ← marshalEvents rest; Ok (j :: js)
  end.

(** [Save], up to the write of the file. *)
Definition Save (evs : list Event) : result json :=
  js ← marshalEvents evs;
  Ok (JArray js).

(** The keys of a serialized object. *)
Definition jsonKeys (j : json) : list string :=
  match j with
  | JObject fields => map fst fields
  | _ => []
  end.

(** ** The pipeline ([main], from the parsing of the log on) *)

Section Pipeline.

Variable globalEventSubmatch : string → list string.
(** The order in which [range] visits a map is not specified; these
    stand for the sequences the run time happens to produce. *)
Variable rangePreserved : gmap string Event → list Event.
Variable rangeNames : gmap Z string → list (Z * string).

Definition pipeline (resourceMonitorEvents : list Event) (lines : list string)
    : result json :=
  st ← scanLines scanInit lines;
  let syscallEvents := flushPreserved (syscallEvents st) (rangePreserved (preserved st)) in
  '(processThreads, syscallEvents) ← reconstruct syscallEvents;
  '(sst, syscallEvents) ← synthLoop globalEventSubmatch processThreads synthInit syscallEvents;
  let metadataEvents :=
    metadataEvents sst
    ++ nameEvents processThreads (rangeNames (processNames sst))
                  (rangeNames (threadNames sst)) in
  events ← merge [metadataEvents; syscallEvents; resourceMonitorEvents];
  Save events.

End Pipeline.

(** ** The resource sampler ([resources.go]) *)

Module float64.

Definition prec : Z := 53.
Definition emax : Z := 1024.

(** The conversion of an integer, rounded to nearest even. *)
Definition ofZ (z : Z) : spec_float := binary_normalize prec emax z 0 false.
Definition mul : spec_float → spec_float → spec_float := SFmul prec emax.
Definition div : spec_float → spec_float → spec_float := SFdiv prec emax.

End float64.

Module time.

(** A [time.Time] is carried by its reading in nanoseconds, a
    [Duration] by a count of nanoseconds. *)
Definition Sub (t u : Z) : Z :=
  let d := t - u in
  if d <? minInt then minInt else if maxInt <? d then maxInt else d.

Definition Microseconds (d : Z) : Z := Z.quot d 1000.

End time.

Definition maxUint64 : Z := 2 ^ 64 - 1.

(** [parseUint64]; [None] stands for a non-nil error.  [ParseUint]
    accepts digits only. *)
Definition parseUint64 (s : string) : option Z :=
  if String.eqb s "max" then Some maxUint64
  else
    match s with
    | EmptyString => None
    | _ =>
        match strconv.parseDigits 0 s with
        | Some n => if n <=? maxUint64 then Some n else None
        | None => None
        end
    end.

(** [strings.Cut(line, " ")] *)
Fixpoint cutSpace (line : string) : option (string * string) :=
  match line with
  | EmptyString => None
  | String a rest =>
      if Ascii.eqb a " " then Some (EmptyString, rest)
      else match cutSpace rest with
           | Some (name, value) => Some (String a name, value)
           | None => None
           end
  end.

(** The loop of [readFlatKeyed] for a table [kv] with the one key [key];
    [v] is the value the pointer holds so far. *)
Fixpoint readLines (lines : list string) (key : string) (v : Z) : option Z :=
  match lines with
  | [] => Some v
  | line :: rest =>
      match cutSpace line with
      | None => readLines rest key v
      | Some (name, value) =>
          if String.eqb name key then
            match parseUint64 value with
            | Some v' => readLines rest key v'
            | None => None
            end
          else readLines rest key v
      end
  end.

(** [readFlatKeyed]; [contents] is what [os.ReadFile] returned, [None]
    when it failed. *)
Definition readFlatKeyed (contents : option string) (key : string) : option Z :=
  match contents with
  | None => None
  | Some c =>
      readLines (strings.Split (strings_trim.TrimSpace c) "010"%char) key 0
  end.

Record sample : Type := mkSample {
  sample_ts : Z;
  sample_cpu : spec_float;
  sample_memory : Z
}.

Record ResourceMonitor : Type := mkMonitor {
  vCPUs : spec_float;
  lastTimestamp : Z;
  lastCPUUsageUsec : Z;
  samples : list sample
}.

(** [vCPUs := float64(quotaMs) / float64(timesliceMs)] *)
Definition allottedCores (quotaMs timesliceMs : Z) : spec_float :=
  float64.div (float64.ofZ quotaMs) (float64.ofZ timesliceMs).

(** The expression assigned to [cpuUsage]. *)
Definition cpuUsage (r : ResourceMonitor) (timestamp cpuUsageUsec : Z) : spec_float :=
  let timeDelta := time.Microseconds (time.Sub timestamp (lastTimestamp r)) in
  float64.div
    (float64.div
       (float64.mul (float64.ofZ 100)
                    (float64.ofZ (wrapUint64 (cpuUsageUsec - lastCPUUsageUsec r))))
       (vCPUs r))
    (float64.ofZ timeDelta).

(** What one firing of the ticker observes: the clock and the contents
    of the two pseudo-files. *)
Record tick : Type := mkTick {
  now : Z;
  cpuStat : option string;
  memoryStat : option string
}.

(** The body of the loop of [Run]; [None] when the loop returns. *)
Definition runTick (r : ResourceMonitor) (t : tick) : option ResourceMonitor :=
  let timestamp := now t in
  match readFlatKeyed (cpuStat t) "usage_usec" with
  | None => None
  | Some cpuUsageUsec =>
      match readFlatKeyed (memoryStat t) "anon" with
      | None => None
      | Some memoryAnon =>
          Some (mkMonitor (vCPUs r) timestamp cpuUsageUsec
                  (samples r ++ [mkSample timestamp (cpuUsage r timestamp cpuUsageUsec) memoryAnon]))
      end
  end.

(** [Run] over the firings of the ticker that precede the cancellation. *)
Fixpoint Run (r : ResourceMonitor) (ticks : list tick) : ResourceMonitor :=
  match ticks with
  | [] => r
  | t :: rest =>
      match runTick r t with
      | None => r
      | Some r' => Run r' rest
      end
  end.

(** [Events]: the two name events and one counter event per sample. *)
Definition counterEvent (s : sample) : Event :=
  mkEvent EmptyString EmptyString EmptyString "C" 0 0 (Z.quot (sample_ts s) 1000) 0 0 EmptyString
          (mkArgs EmptyString (sample_cpu s) (sample_memory s) EmptyString EmptyString EmptyString 0).

Definition Events (r : ResourceMonitor) : list Event :=
  [ nameEvent "process_name" 0 0 "System resources";
    nameEvent "thread_name" 0 0 "System resources" ]
  ++ map counterEvent (samples r).


(** * Properties *)

(** ** Classification *)

Lemma classify_cases (line : string) :
  classify line ∈ ["failed"; "successful"; "unfinished"; "detached"; "lifetime"; "other"]%string.
Proof.
  unfold classify.
  repeat (match goal with |- context [if ?b then _ else _] => destruct b end);
    set_solver.
Qed.

Lemma NewEvent_other (line : string) :
  classify line = "other"%string →
  NewEvent line = Ok (mkEvent line EmptyString "other" EmptyString 0 0 0 0 0 EmptyString zeroArgs).
Proof.
  intros H. unfold NewEvent, getType, addFields, getReGroups. simpl.
  rewrite H. reflexivity.
Qed.

(** C4: every line gets exactly one of the six categories, decided by
    the first grammar that matches in the order failed, successful,
    unfinished, detached, lifetime; a line that matches the failed
    grammar is "failed" whether or not it matches the successful one,
    and a line that matches no grammar is "other".  [getType] stores
    that category in the event. *)
Theorem classification_total_priority (line : string) :
  let failed := grammar.MatchString grammar.regexpFailed line in
  let successful := grammar.MatchString grammar.regexpSuccessful line in
  let unfinished := grammar.MatchString grammar.regexpUnfinished line in
  let detached := grammar.MatchString grammar.regexpDetached line in
  let exited := grammar.MatchString grammar.regexpExited line in
  Cat (getType (mkEvent line EmptyString EmptyString EmptyString 0 0 0 0 0 EmptyString zeroArgs))
    = classify line
  ∧ ((failed = true ∧ classify line = "failed"%string)
     ∨ (failed = false ∧ successful = true ∧ classify line = "successful"%string)
     ∨ (failed = false ∧ successful = false ∧ unfinished = true
        ∧ classify line = "unfinished"%string)
     ∨ (failed = false ∧ successful = false ∧ unfinished = false ∧ detached = true
        ∧ classify line = "detached"%string)
     ∨ (failed = false ∧ successful = false ∧ unfinished = false ∧ detached = false
        ∧ exited = true ∧ classify line = "lifetime"%string)
     ∨ (failed = false ∧ successful = false ∧ unfinished = false ∧ detached = false
        ∧ exited = false ∧ classify line = "other"%string)).
Proof.
  cbv zeta. split; [reflexivity|].
  unfold classify.
  destruct (grammar.MatchString grammar.regexpFailed line); [tauto|].
  destruct (grammar.MatchString grammar.regexpSuccessful line); [tauto|].
  destruct (grammar.MatchString grammar.regexpUnfinished line); [tauto|].
  destruct (grammar.MatchString grammar.regexpDetached line); [tauto|].
  destruct (grammar.MatchString grammar.regexpExited line); tauto.
Qed.

(** A line of a failed call matches both the failed and the successful
    grammar and is classified "failed". *)
Example classify_failed_line :
  let line := "101 0.000030 open(x) = -1 ENOENT (No such file or directory) <0.000005>"%string in
  grammar.MatchString grammar.regexpFailed line = true
  ∧ grammar.MatchString grammar.regexpSuccessful line = true
  ∧ classify line = "failed"%string.
Proof. vm_compute. auto. Qed.

Example classify_each :
  classify "100 0.000001 clone(CLONE_THREAD, ...) = 101 <0.000010>" = "successful"%string
  ∧ classify "101 0.000020 read(3,  <unfinished ...>" = "unfinished"%string
  ∧ classify "101 0.000030 <... read resumed>abc, 3) = 3 <0.000005>" = "detached"%string
  ∧ classify "101 0.000030 +++ exited with 0 +++" = "lifetime"%string
  ∧ classify "strace: Process 101 attached" = "other"%string.
Proof. vm_compute. auto. Qed.

(** ** The scanning loop *)

Lemma scanLines_app (st : ScanState) (l1 l2 : list string) :
  scanLines st (l1 ++ l2) = (st' ← scanLines st l1; scanLines st' l2).
Proof.
  revert st. induction l1 as [|l l1 IH]; intros st; simpl; [reflexivity|].
  destruct (scanLine st l) as [st1| | |]; simpl; auto.
Qed.

Lemma scanLines_other (st : ScanState) (lines : list string) :
  Forall (fun l => classify l = "other"%string) lines →
  scanLines st lines = Ok st.
Proof.
  induction 1 as [|l lines Hl _ IH]; simpl; [reflexivity|].
  unfold scanLine. rewrite (NewEvent_other _ Hl). simpl. exact IH.
Qed.

Lemma markAlive_preserved (st : ScanState) (e : Event) :
  preserved (markAlive st e) = preserved st.
Proof. unfold markAlive. destruct (negb _); reflexivity. Qed.

Lemma scanEvent_detached_missing (st : ScanState) (e : Event) :
  Cat e = "detached"%string →
  preserved st !! preservedKey e = None →
  scanEvent st e = Panic.
Proof.
  intros Hc Hk. unfold scanEvent. rewrite Hc. simpl.
  rewrite markAlive_preserved, Hk. reflexivity.
Qed.

Section PipelineFacts.

Variable globalEventSubmatch : string → list string.
Variable rangePreserved : gmap string Event → list Event.
Variable rangeNames : gmap Z string → list (Z * string).

(** [range preserved] visits every entry of the table once. *)
Hypothesis rangePreserved_values :
  ∀ m, rangePreserved m ≡ₚ (map_to_list m).*2.

Lemma rangePreserved_empty : rangePreserved ∅ = [].
Proof.
  apply Permutation_nil_r. rewrite rangePreserved_values.
  rewrite map_to_list_empty. reflexivity.
Qed.

(** C9: when the log yields no event (it is empty, or every line is
    "other"), [syscallEvents[0]] is read from an empty slice and the
    run panics; no trace is written. *)
Theorem empty_log_panics (resourceMonitorEvents : list Event) (lines : list string) :
  Forall (fun l => classify l = "other"%string) lines →
  pipeline globalEventSubmatch rangePreserved rangeNames resourceMonitorEvents lines
    = Panic.
Proof.
  intros H. unfold pipeline.
  rewrite (scanLines_other _ _ H). simpl.
  rewrite rangePreserved_empty. reflexivity.
Qed.

(** C7: a "detached" line whose key is not in the pending table makes
    the run panic on the nil entry; the line is neither skipped nor
    turned into an instant event. *)
Theorem detached_without_unfinished_panics
    (resourceMonitorEvents : list Event) (before after : list string)
    (line : string) (st : ScanState) (e : Event) :
  scanLines scanInit before = Ok st →
  NewEvent line = Ok e →
  Cat e = "detached"%string →
  preserved st !! preservedKey e = None →
  pipeline globalEventSubmatch rangePreserved rangeNames resourceMonitorEvents
           (before ++ line :: after) = Panic.
Proof.
  intros Hb He Hc Hk. unfold pipeline.
  rewrite scanLines_app, Hb. simpl.
  unfold scanLine. rewrite He. simpl.
  rewrite (scanEvent_detached_missing _ _ Hc Hk). reflexivity.
Qed.

End PipelineFacts.

Definition valuesInOrder (m : gmap string Event) : list Event := (map_to_list m).*2.

Lemma valuesInOrder_values (m : gmap string Event) :
  valuesInOrder m ≡ₚ (map_to_list m).*2.
Proof. reflexivity. Qed.

Lemma empty_log_panics_witness :
  pipeline (fun _ => []) valuesInOrder map_to_list []
           ["strace: Process 101 attached"%string; EmptyString] = Panic.
Proof.
  apply (empty_log_panics (fun _ => []) valuesInOrder map_to_list valuesInOrder_values).
  repeat constructor.
Defined.

Lemma detached_without_unfinished_panics_witness :
  pipeline (fun _ => []) valuesInOrder map_to_list []
           (["100 0.000010 getpid() = 100 <0.000002>"%string]
            ++ "101 0.000030 <... read resumed>abc, 3) = 3 <0.000005>"%string
            :: ["101 0.000040 +++ exited with 0 +++"%string]) = Panic.
Proof.
  eapply (detached_without_unfinished_panics (fun _ => []) valuesInOrder map_to_list).
  - vm_compute. reflexivity.
  - vm_compute. reflexivity.
  - reflexivity.
  - vm_compute. reflexivity.
Defined.

(** ** Numeric fields *)

Fixpoint hasDot (s : string) : bool :=
  match s with
  | EmptyString => false
  | String a s' => Ascii.eqb a "." || hasDot s'
  end.

Definition noDot (s : string) : Prop := hasDot s = false.

Lemma Split_not_nil (s : string) (sep : ascii) : strings.Split s sep ≠ [].
Proof.
  induction s as [|a s IH]; simpl; [discriminate|].
  destruct (Ascii.eqb a sep); [discriminate|].
  destruct (strings.Split s sep); discriminate.
Qed.

Lemma Split_noDot (s : string) : noDot s → strings.Split s "." = [s].
Proof.
  unfold noDot. induction s as [|a s IH]; simpl; intros H; [reflexivity|].
  apply orb_false_elim in H as [Ha Hs]. rewrite Ha, (IH Hs). reflexivity.
Qed.

Lemma Split_dot (a b : string) :
  noDot a →
  strings.Split (a +:+ String "." b) "." = a :: strings.Split b ".".
Proof.
  unfold noDot. induction a as [|c a IH]; simpl; intros H; [reflexivity|].
  apply orb_false_elim in H as [Hc Ha]. rewrite Hc, (IH Ha). reflexivity.
Qed.

Lemma convertTS_ok_or_fatal (ts : string) :
  (∃ v, convertTS ts = Ok v) ∨ convertTS ts = Fatal.
Proof.
  unfold convertTS.
  destruct (strings.Split ts ".") as [|s0 [|s1 rest]] eqn:E.
  - by apply Split_not_nil in E.
  - left. eexists. reflexivity.
  - simpl. destruct (strconv.Atoi (s0 +:+ s1)); [left; eexists; reflexivity | right; reflexivity].
Qed.

Lemma convertID_ok_or_fatal (id : string) :
  (∃ v, convertID id = Ok v) ∨ convertID id = Fatal.
Proof.
  unfold convertID. destruct (strconv.Atoi id); [left; eexists; reflexivity | right; reflexivity].
Qed.

Lemma convertTS_noDot (ts : string) : noDot ts → convertTS ts = Ok 0.
Proof. intros H. unfold convertTS. rewrite (Split_noDot _ H). reflexivity. Qed.

Lemma convertTS_dot (a b : string) :
  noDot a → noDot b →
  convertTS (a +:+ String "." b)
  = match strconv.Atoi (a +:+ b) with Some i => Ok i | None => Fatal end.
Proof.
  intros Ha Hb. unfold convertTS.
  rewrite (Split_dot _ _ Ha), (Split_noDot _ Hb). reflexivity.
Qed.

Section FatalRun.

Variable globalEventSubmatch : string → list string.
Variable rangePreserved : gmap string Event → list Event.
Variable rangeNames : gmap Z string → list (Z * string).

Lemma fatal_line_aborts (resourceMonitorEvents : list Event)
    (before after : list string) (line : string) (st : ScanState) :
  scanLines scanInit before = Ok st →
  NewEvent line = Fatal →
  pipeline globalEventSubmatch rangePreserved rangeNames resourceMonitorEvents
           (before ++ line :: after) = Fatal.
Proof.
  intros Hb Hl. unfold pipeline.
  rewrite scanLines_app, Hb. simpl. unfold scanLine. rewrite Hl. reflexivity.
Qed.

End FatalRun.

Lemma groups_not_empty (groups : list string) (i : nat) (g : string) :
  groups !! i = Some g → negb (length groups =? 0)%nat = true.
Proof. destruct groups; [rewrite lookup_nil; discriminate | reflexivity]. Qed.

Ltac step_index H := unfold index; rewrite H; cbn [mbind result_bind].

(** The numeric fields of a line are its groups 1, 2 and, for a call
    with a duration, 6; a failed conversion of any of them makes
    [NewEvent] fail. *)
Lemma addFields_fatal_ts (e : Event) (groups : list string) (g2 g3 : string) :
  getReGroups e = Ok groups →
  groups !! 3%nat = Some g3 → groups !! 2%nat = Some g2 →
  convertTS g2 = Fatal →
  addFields e = Fatal.
Proof.
  intros Hg H3 H2 Hts. unfold addFields. rewrite Hg. cbn [mbind result_bind].
  rewrite (groups_not_empty _ _ _ H3).
  step_index H3. step_index H2. rewrite Hts. reflexivity.
Qed.

Lemma addFields_fatal_pid (e : Event) (groups : list string) (g1 g2 g3 : string) (ts : Z) :
  getReGroups e = Ok groups →
  groups !! 3%nat = Some g3 → groups !! 2%nat = Some g2 → groups !! 1%nat = Some g1 →
  convertTS g2 = Ok ts →
  convertID g1 = Fatal →
  addFields e = Fatal.
Proof.
  intros Hg H3 H2 H1 Hts Hid. unfold addFields. rewrite Hg. cbn [mbind result_bind].
  rewrite (groups_not_empty _ _ _ H3).
  step_index H3. step_index H2. rewrite Hts. cbn [mbind result_bind].
  step_index H1. rewrite Hid. reflexivity.
Qed.

Lemma addFields_fatal_dur (e : Event) (groups : list string)
    (g1 g2 g3 g4 g6 : string) (ts pid : Z) :
  getReGroups e = Ok groups →
  groups !! 3%nat = Some g3 → groups !! 2%nat = Some g2 → groups !! 1%nat = Some g1 →
  groups !! 4%nat = Some g4 → groups !! 6%nat = Some g6 →
  convertTS g2 = Ok ts →
  convertID g1 = Ok pid →
  Cat e = "successful"%string ∨ Cat e = "failed"%string ∨ Cat e = "detached"%string →
  convertTS g6 = Fatal →
  addFields e = Fatal.
Proof.
  intros Hg H3 H2 H1 H4 H6 Hts Hid Hcases Hd. unfold addFields. rewrite Hg. cbn [mbind result_bind].
  rewrite (groups_not_empty _ _ _ H3).
  step_index H3. step_index H2. rewrite Hts. cbn [mbind result_bind].
  step_index H1. rewrite Hid. cbn [mbind result_bind].
  step_index H4.
  unfold addFieldsByCat.
  destruct Hcases as [Hcat | [Hcat | Hcat]]; cbn [Cat setFirst setArgs setTid setPid setTs setName];
    rewrite Hcat; cbn [String.eqb Ascii.eqb Bool.eqb orb];
    step_index H6; rewrite Hd; reflexivity.
Qed.

Lemma addFields_fatal (e : Event) (groups : list string) (g1 g2 g3 g4 : string) :
  getReGroups e = Ok groups →
  groups !! 1%nat = Some g1 → groups !! 2%nat = Some g2 →
  groups !! 3%nat = Some g3 → groups !! 4%nat = Some g4 →
  convertTS g2 = Fatal
  ∨ convertID g1 = Fatal
  ∨ ((Cat e = "successful"%string ∨ Cat e = "failed"%string ∨ Cat e = "detached"%string)
     ∧ ∃ g6, groups !! 6%nat = Some g6 ∧ convertTS g6 = Fatal) →
  addFields e = Fatal.
Proof.
  intros Hg H1 H2 H3 H4 Hfail.
  destruct (convertTS_ok_or_fatal g2) as [[ts Hts]|Hts];
    [|by eapply addFields_fatal_ts].
  destruct (convertID_ok_or_fatal g1) as [[pid Hid]|Hid];
    [|by eapply addFields_fatal_pid].
  destruct Hfail as [Hf|[Hf|(Hc & g6 & H6 & Hf)]]; [congruence|congruence|].
  by eapply addFields_fatal_dur.
Qed.

(** C5 (amended): a field with a dot is converted by putting the text
    before the first dot and the text after it (up to a second dot, if
    any) side by side and reading the digits as one integer, so
    "0.000020" gives 20; when those digits do not parse, or the process
    id does not, the conversion is fatal and the whole run aborts.  A
    field without a dot is no failure: it converts to 0. *)
Theorem numeric_fields_converted :
  (∀ a b : string, noDot a → noDot b →
     convertTS (a +:+ String "." b)
     = match strconv.Atoi (a +:+ b) with Some i => Ok i | None => Fatal end)
  ∧ (∀ a b rest : string, noDot a → noDot b →
     convertTS (a +:+ String "." (b +:+ String "." rest))
     = match strconv.Atoi (a +:+ b) with Some i => Ok i | None => Fatal end)
  ∧ convertTS "0.000020" = Ok 20
  ∧ (∀ ts : string, noDot ts → convertTS ts = Ok 0)
  ∧ (∀ id : string,
     convertID id = match strconv.Atoi id with Some i => Ok i | None => Fatal end)
  ∧ (∀ (e : Event) (groups : list string) (g1 g2 g3 g4 : string),
     getReGroups e = Ok groups →
     groups !! 1%nat = Some g1 → groups !! 2%nat = Some g2 →
     groups !! 3%nat = Some g3 → groups !! 4%nat = Some g4 →
     convertTS g2 = Fatal
     ∨ convertID g1 = Fatal
     ∨ ((Cat e = "successful"%string ∨ Cat e = "failed"%string
         ∨ Cat e = "detached"%string)
        ∧ ∃ g6, groups !! 6%nat = Some g6 ∧ convertTS g6 = Fatal) →
     addFields e = Fatal)
  ∧ (∀ ge rp rn rme before after line st,
     scanLines scanInit before = Ok st →
     NewEvent line = Fatal →
     pipeline ge rp rn rme (before ++ line :: after) = Fatal).
Proof.
  split; [exact convertTS_dot|].
  split.
  { intros a b rest Ha Hb. unfold convertTS.
    rewrite (Split_dot _ _ Ha), (Split_dot _ _ Hb).
    destruct (strings.Split rest ".") eqn:E; [by apply Split_not_nil in E|].
    reflexivity. }
  split; [reflexivity|].
  split; [exact convertTS_noDot|].
  split; [reflexivity|].
  split; [exact addFields_fatal|].
  intros ge rp rn rme before after line st. apply fatal_line_aborts.
Qed.

Lemma numeric_fields_converted_witness :
  convertTS "12.000345" = Ok 12000345
  ∧ convertTS "a.b" = Fatal
  ∧ convertTS "unavailable" = Ok 0
  ∧ pipeline (fun _ => []) valuesInOrder map_to_list []
      (["100 0.000010 getpid() = 100 <0.000002>"%string]
       ++ "100 0.000020 read() = 0 <a.b>"%string
       :: ["100 0.000040 +++ exited with 0 +++"%string]) = Fatal.
Proof.
  destruct numeric_fields_converted as (Hdot & _ & _ & Hno & _ & _ & Hrun).
  split; [|split; [|split]].
  - apply (Hdot "12" "000345")%string; reflexivity.
  - apply (Hdot "a" "b")%string; reflexivity.
  - apply Hno. reflexivity.
  - eapply Hrun; vm_compute; reflexivity.
Defined.

(** C5, as stated, fails: the duration of this line does not parse as a
    number, and the line is converted (with duration 0) instead of
    aborting the run. *)
Lemma unparseable_duration_not_fatal :
  let line := "100 0.000020 read() = 0 <unavailable>"%string in
  grammar.FindStringSubmatch grammar.regexpSuccessful line !! 6%nat = Some "unavailable"%string
  ∧ strconv.Atoi "unavailable" = None
  ∧ (∃ e, NewEvent line = Ok e ∧ Dur e = 0)
  ∧ ∃ j, pipeline (fun _ => []) valuesInOrder map_to_list [] [line] = Ok j.
Proof.
  cbv zeta. split; [vm_compute; reflexivity|].
  split; [reflexivity|].
  split; [eexists; split; [vm_compute; reflexivity | reflexivity]|].
  eexists. vm_compute. reflexivity.
Qed.

(** ** What [NewEvent] returns *)

Lemma bind_Ok {A B : Type} (m : result A) (f : A → result B) (b : B) :
  (x ← m; f x) = Ok b → ∃ a, m = Ok a ∧ f a = Ok b.
Proof. destruct m; simpl; intros H; try discriminate. eauto. Qed.

Ltac inv_bind H :=
  let a := fresh "a" in
  let Ha := fresh "Ha" in
  apply bind_Ok in H as (a & Ha & H).

Lemma Atoi_inInt (s : string) (v : Z) : strconv.Atoi s = Some v → inInt v.
Proof.
  unfold strconv.Atoi.
  destruct (match s with
            | String "-"%char r => (true, r)
            | String "+"%char r => (false, r)
            | _ => (false, s)
            end) as [neg body].
  destruct body; [discriminate|].
  destruct (strconv.parseDigits 0 _); [|discriminate].
  destruct ((minInt <=? _) && (_ <=? maxInt)) eqn:E; [|discriminate].
  intros [= <-]. apply andb_prop in E as [E1 E2]. unfold inInt. lia.
Qed.

Lemma convertTS_inInt (ts : string) (v : Z) : convertTS ts = Ok v → inInt v.
Proof.
  unfold convertTS.
  destruct (length (strings.Split ts ".") =? 1)%nat.
  - intros [= <-]. unfold inInt, minInt, maxInt. lia.
  - intros H. inv_bind H. inv_bind H.
    destruct (strconv.Atoi _) eqn:E; [|discriminate].
    injection H as <-. by eapply Atoi_inInt.
Qed.

Lemma addFieldsByCat_spec (e e' : Event) (groups : list string) :
  addFieldsByCat e groups = Ok e' →
  Cat e' = Cat e ∧ Pid e' = Pid e ∧ Tid e' = Tid e ∧ Ts e' = Ts e
  ∧ (Cat e = "detached"%string → Ph e' = "X"%string)
  ∧ (Cat e = "unfinished"%string → Ph e' = "B"%string ∧ Name e' = Name e).
Proof.
  unfold addFieldsByCat.
  destruct (String.eqb (Cat e) "successful" || String.eqb (Cat e) "failed") eqn:E1.
  { intros H. do 4 inv_bind H. injection H as <-. simpl.
    split_and!; try done; intros Hc; rewrite Hc in E1; discriminate. }
  destruct (String.eqb (Cat e) "detached") eqn:E2.
  { intros H. do 4 inv_bind H. injection H as <-. simpl.
    split_and!; try done. intros Hc; rewrite Hc in E2; discriminate. }
  destruct (String.eqb_spec (Cat e) "unfinished") as [E3|E3].
  { intros H. inv_bind H. injection H as <-. simpl.
    split_and!; try done. intros Hc; rewrite Hc in E2; discriminate. }
  destruct (String.eqb_spec (Cat e) "lifetime") as [E4|E4].
  { intros [= <-]. simpl. split_and!; try done.
    intros Hc; rewrite Hc in E2; discriminate. }
  intros [= <-]. split_and!; try done.
  intros Hc; rewrite Hc in E2; discriminate.
Qed.

Lemma getReGroups_nonempty (e : Event) :
  Cat e ∈ ["successful"; "failed"; "unfinished"; "detached"; "lifetime"]%string →
  getReGroups e ≠ Ok [].
Proof.
  intros Hc. unfold getReGroups, index, grammar.FindAllStringSubmatch,
    regexp.FindAllStringSubmatch.
  repeat (apply elem_of_cons in Hc as [->|Hc]; simpl;
          [match goal with
           | |- context [regexp.FindStringSubmatch ?r ?n ?s] =>
               destruct (regexp.FindStringSubmatch r n s)
           end; simpl; congruence|]).
  by apply elem_of_nil in Hc.
Qed.

Lemma NewEvent_spec (line : string) (e : Event) :
  NewEvent line = Ok e →
  Cat e = classify line ∧ Pid e = Tid e ∧ inInt (Ts e)
  ∧ (Cat e = "detached"%string → Ph e = "X"%string)
  ∧ (Cat e = "unfinished"%string → Ph e = "B"%string).
Proof.
  unfold NewEvent, addFields. intros H. inv_bind H.
  destruct a as [|g0 gs].
  - injection H as <-. simpl. split_and!; try done.
    + intros Hcat. exfalso. revert Ha. apply getReGroups_nonempty.
      simpl. rewrite Hcat. set_solver.
    + intros Hcat. exfalso. revert Ha. apply getReGroups_nonempty.
      simpl. rewrite Hcat. set_solver.
  - simpl in H.
    do 7 inv_bind H.
    apply addFieldsByCat_spec in H as (Hc & Hp & Ht & Hts & Hd & Hu).
    simpl in *. rewrite Hc, Hp, Ht, Hts.
    assert (a3 = a4) as -> by congruence.
    split_and!; try done.
    + by eapply convertTS_inInt.
    + intros Hcat. by apply Hu.
Qed.

(** ** Pairing of unfinished and resumed calls *)

Lemma markAlive_alive (st : ScanState) (e : Event) :
  liveThreads (markAlive st e) !! Tid e = Some true.
Proof.
  unfold markAlive.
  destruct (liveThreads st !! Tid e) as [[|]|] eqn:E; simpl.
  - exact E.
  - apply lookup_insert_eq.
  - apply lookup_insert_eq.
Qed.

Lemma markAlive_keeps (st : ScanState) (e : Event) (t : Z) :
  liveThreads st !! t = Some true →
  liveThreads (markAlive st e) !! t = Some true.
Proof.
  intros H. unfold markAlive. destruct (negb _); simpl; [|exact H].
  destruct (decide (Tid e = t)) as [->|Hne].
  - apply lookup_insert_eq.
  - by rewrite lookup_insert_ne.
Qed.

Lemma markAlive_already (st : ScanState) (e : Event) :
  liveThreads st !! Tid e = Some true → markAlive st e = st.
Proof. intros H. unfold markAlive. rewrite H. reflexivity. Qed.

Lemma scanEvent_inv (st st' : ScanState) (e : Event) :
  scanEvent st e = Ok st' →
  (Cat e = "other"%string ∧ st' = st)
  ∨ (Cat e = "unfinished"%string
     ∧ st' = mkScan (syscallEvents (markAlive st e))
                    (<[preservedKey e := e]> (preserved st))
                    (liveThreads (markAlive st e)))
  ∨ (Cat e = "detached"%string
     ∧ ∃ p, preserved st !! preservedKey e = Some p
            ∧ st' = mkScan (syscallEvents (markAlive st e) ++ [mergeDetached e p])
                           (delete (preservedKey e) (preserved st))
                           (liveThreads (markAlive st e)))
  ∨ (Cat e ≠ "other"%string ∧ Cat e ≠ "unfinished"%string ∧ Cat e ≠ "detached"%string
     ∧ st' = mkScan (syscallEvents (markAlive st e) ++ [e]) (preserved st)
                    (liveThreads (markAlive st e))).
Proof.
  unfold scanEvent.
  destruct (String.eqb_spec (Cat e) "other") as [E0|E0].
  { intros [= <-]. left. done. }
  destruct (String.eqb_spec (Cat e) "unfinished") as [E1|E1].
  { intros [= <-]. right. left. rewrite markAlive_preserved. done. }
  destruct (String.eqb_spec (Cat e) "detached") as [E2|E2].
  { rewrite markAlive_preserved.
    destruct (preserved st !! preservedKey e) as [p|] eqn:Ep; [|discriminate].
    intros [= <-]. right. right. left. eauto. }
  rewrite markAlive_preserved.
  destruct (String.eqb (Cat e) "lifetime");
    intros [= <-]; right; right; right; done.
Qed.

Lemma scanEvent_alive (st st' : ScanState) (e : Event) (t : Z) :
  scanEvent st e = Ok st' →
  liveThreads st !! t = Some true → liveThreads st' !! t = Some true.
Proof.
  intros H Ht.
  apply scanEvent_inv in H as [[_ ->]|[[_ ->]|[(_ & p & _ & ->)|(_ & _ & _ & ->)]]];
    simpl; auto using markAlive_keeps.
Qed.

Lemma scanEvent_preserved_other (st st' : ScanState) (e : Event) (k : string) :
  scanEvent st e = Ok st' →
  (Cat e = "unfinished"%string ∨ Cat e = "detached"%string → preservedKey e ≠ k) →
  preserved st' !! k = preserved st !! k.
Proof.
  intros H Hk.
  apply scanEvent_inv in H as [[_ ->]|[[Hc ->]|[(Hc & p & _ & ->)|(_ & _ & _ & ->)]]];
    simpl; try done.
  - apply lookup_insert_ne. auto.
  - apply lookup_delete_ne. auto.
Qed.

Lemma scanLines_between (between : list string) (st st' : ScanState) (k : string) (t : Z) :
  (∀ l m, l ∈ between → NewEvent l = Ok m →
          Cat m = "unfinished"%string ∨ Cat m = "detached"%string →
          preservedKey m ≠ k) →
  scanLines st between = Ok st' →
  preserved st' !! k = preserved st !! k
  ∧ (liveThreads st !! t = Some true → liveThreads st' !! t = Some true).
Proof.
  revert st. induction between as [|l between IH]; intros st Hk H; simpl in H.
  - injection H as <-. done.
  - inv_bind H. unfold scanLine in Ha. inv_bind Ha.
    destruct (IH a) as [IH1 IH2]; [|exact H|].
    { intros l' m Hl'. apply Hk. by right. }
    split.
    + rewrite IH1. eapply scanEvent_preserved_other; [exact Ha|].
      apply (Hk l); [by left | exact Ha0].
    + intros Ht. apply IH2. by eapply scanEvent_alive.
Qed.

Lemma wrapInt_small (z : Z) : inInt z → wrapInt z = z.
Proof.
  unfold inInt, minInt, maxInt, wrapInt. intros H.
  rewrite Z.mod_small; lia.
Qed.

(** ** Soundness of the matcher *)

Module regexp_facts.
Import regexp.

(** What a successful match hands to its continuation. *)
Definition sound (r : re) (s : list ascii) (c : caps)
    (k : list ascii → caps → answer) (res : list ascii * caps) : Prop :=
  ∃ x s' c', s = x ++ s' ∧ Lang r x ∧ k s' c' = Some res
             ∧ ∀ n y, (n, y) ∈ c' → (n, y) ∈ c ∨ Captures r n y.

Lemma starLoop_sound (r : re) (k : list ascii → caps → answer) :
  (∀ s c k' res, rmatch r s c k' = Some res → sound r s c k' res) →
  ∀ n s c res, starLoop (rmatch r) k n s c = Some res → sound (Star r) s c k res.
Proof.
  intros IH. induction n as [|n IHn]; intros s c res H; simpl in H.
  - exists [], s, c. split_and!; auto using Lang_StarNil.
  - destruct (rmatch r s c _) as [res'|] eqn:E.
    + injection H as ->.
      apply IH in E as (x & s1 & c1 & -> & Hx & Hk & Hc).
      destruct (length s1 <? length (x ++ s1))%nat; [|discriminate].
      apply IHn in Hk as (y & s2 & c2 & -> & Hy & Hk & Hc2).
      exists (x ++ y), s2, c2. split_and!.
      * by rewrite app_assoc.
      * by constructor.
      * exact Hk.
      * intros m z Hz. destruct (Hc2 m z Hz) as [Hz'|Hz']; [|by right].
        destruct (Hc m z Hz') as [?|?]; [by left|right; by constructor].
    + exists [], s, c. split_and!; auto using Lang_StarNil.
Qed.

Lemma rmatch_sound (r : re) :
  ∀ s c k res, rmatch r s c k = Some res → sound r s c k res.
Proof.
  induction r as [|p|r1 IH1 r2 IH2|r1 IH1 r2 IH2|r IH|r IH|g r IH];
    intros s c k res H; simpl in H.
  - exists [], s, c. split_and!; auto using Lang_Eps.
  - destruct s as [|a s]; [discriminate|].
    destruct (p a) eqn:Ep; [|discriminate].
    exists [a], s, c. split_and!; auto using Lang_Cls.
  - apply IH1 in H as (x & s1 & c1 & -> & Hx & Hk & Hc).
    apply IH2 in Hk as (y & s2 & c2 & -> & Hy & Hk & Hc2).
    exists (x ++ y), s2, c2. split_and!.
    + by rewrite app_assoc.
    + by constructor.
    + exact Hk.
    + intros m z Hz. destruct (Hc2 m z Hz) as [Hz'|Hz'].
      * destruct (Hc m z Hz') as [?|?]; [by left|right; by apply Captures_SeqL].
      * right; by apply Captures_SeqR.
  - destruct (rmatch r1 s c k) as [res'|] eqn:E.
    + injection H as ->.
      apply IH1 in E as (x & s1 & c1 & -> & Hx & Hk & Hc).
      exists x, s1, c1. split_and!; auto using Lang_AltL.
      intros m z Hz. destruct (Hc m z Hz); [by left|right; by apply Captures_AltL].
    + apply IH2 in H as (x & s1 & c1 & -> & Hx & Hk & Hc).
      exists x, s1, c1. split_and!; auto using Lang_AltR.
      intros m z Hz. destruct (Hc m z Hz); [by left|right; by apply Captures_AltR].
  - destruct (rmatch r s c k) as [res'|] eqn:E.
    + injection H as ->.
      apply IH in E as (x & s1 & c1 & -> & Hx & Hk & Hc).
      exists x, s1, c1. split_and!; auto using Lang_OptSome.
      intros m z Hz. destruct (Hc m z Hz); [by left|right; by constructor].
    + exists [], s, c. split_and!; auto using Lang_OptNone.
  - by eapply starLoop_sound.
  - apply IH in H as (x & s1 & c1 & -> & Hx & Hk & Hc).
    exists x, s1, ((g, take (length (x ++ s1) - length s1) (x ++ s1)) :: c1).
    split_and!; auto using Lang_Grp.
    intros m z Hz. apply elem_of_cons in Hz as [Hz|Hz].
    + injection Hz as -> ->. right.
      rewrite length_app, Nat.add_sub, take_app_length. by constructor.
    + destruct (Hc m z Hz); [by left|right; by constructor].
Qed.

Lemma capture_elem (n : nat) (c : caps) (y : list ascii) :
  capture n c = Some y → (n, y) ∈ c.
Proof.
  induction c as [|[m x] c IH]; simpl; [discriminate|].
  destruct (Nat.eqb_spec m n) as [->|Hne].
  - intros [= ->]. by left.
  - intros H. right. auto.
Qed.

(** The text reported for group [n] is one the group can hold. *)
Lemma run_capture (r : re) (s : string) (s' : list ascii) (c : caps)
    (n : nat) (y : list ascii) :
  run r s = Some (s', c) → capture n c = Some y → Captures r n y.
Proof.
  unfold run. intros H Hy.
  apply rmatch_sound in H as (x & s1 & c1 & _ & _ & [= <- <-] & Hc).
  apply capture_elem in Hy. destruct (Hc n y Hy) as [Hin|]; [|done].
  by apply elem_of_nil in Hin.
Qed.

Lemma Lang_allows (r : re) (x : list ascii) :
  Lang r x → Forall (fun a => allows r a = true) x.
Proof.
  induction 1; simpl; try apply Forall_app; try constructor;
    repeat match goal with
      | H : Forall _ _ |- Forall _ _ =>
          eapply Forall_impl; [exact H|]; simpl; intros ? ->; auto using orb_true_r
      end; auto.
Qed.

End regexp_facts.

(** ** Timestamps are not negative *)

(** The characters the group [n] of an expression can hold. *)
Fixpoint groupAllows (r : regexp.re) (n : nat) (a : ascii) : bool :=
  match r with
  | regexp.Grp m r1 => (Nat.eqb m n && regexp.allows r1 a) || groupAllows r1 n a
  | regexp.Seq r1 r2 | regexp.Alt r1 r2 => groupAllows r1 n a || groupAllows r2 n a
  | regexp.Opt r1 | regexp.Star r1 => groupAllows r1 n a
  | _ => false
  end.

Fixpoint hasMinus (s : string) : bool :=
  match s with
  | EmptyString => false
  | String a s' => Ascii.eqb a "-" || hasMinus s'
  end.

Lemma Captures_groupAllows (r : regexp.re) (n : nat) (y : list ascii) :
  regexp.Captures r n y → Forall (fun a => groupAllows r n a = true) y.
Proof.
  induction 1; simpl.
  - apply regexp_facts.Lang_allows in H.
    eapply Forall_impl; [exact H|]. simpl. intros a ->.
    by rewrite Nat.eqb_refl.
  - eapply Forall_impl; [exact IHCaptures|]. simpl. intros a ->. apply orb_true_r.
  - eapply Forall_impl; [exact IHCaptures|]. simpl. by intros a ->.
  - eapply Forall_impl; [exact IHCaptures|]. simpl. intros a ->. apply orb_true_r.
  - eapply Forall_impl; [exact IHCaptures|]. simpl. by intros a ->.
  - eapply Forall_impl; [exact IHCaptures|]. simpl. intros a ->. apply orb_true_r.
  - exact IHCaptures.
  - exact IHCaptures.
Qed.

Lemma hasMinus_of_list (y : list ascii) :
  Forall (fun a => Ascii.eqb a "-" = false) y →
  hasMinus (string_of_list_ascii y) = false.
Proof. induction 1 as [|a y Ha _ IH]; simpl; [done|]. by rewrite Ha, IH. Qed.

Lemma group_no_minus (r : regexp.re) (ng n : nat) (line g : string) :
  groupAllows r (S n) "-" = false →
  regexp.FindStringSubmatch r ng line !! S n = Some g →
  hasMinus g = false.
Proof.
  intros Hr. unfold regexp.FindStringSubmatch.
  destruct (regexp.run r line) as [[s' c']|] eqn:E; [|by rewrite lookup_nil].
  simpl. rewrite list_lookup_fmap.
  destruct (seq 1 ng !! n) as [i|] eqn:Ei; [|discriminate].
  apply lookup_seq in Ei as [-> _]. simpl. intros [= <-].
  apply hasMinus_of_list.
  destruct (regexp.capture (S n) c') as [y|] eqn:Ey; simpl; [|constructor].
  apply (regexp_facts.run_capture _ _ _ _ _ _ E), Captures_groupAllows in Ey.
  eapply Forall_impl; [exact Ey|]. simpl. intros a Ha.
  destruct (Ascii.eqb_spec a "-") as [->|]; [congruence|done].
Qed.

Lemma hasMinus_app (a b : string) : hasMinus (a +:+ b) = hasMinus a || hasMinus b.
Proof. induction a as [|c a IH]; simpl; [done|]. by rewrite IH, orb_assoc. Qed.

Lemma Split_no_minus (s : string) (sep : ascii) :
  hasMinus s = false → Forall (fun p => hasMinus p = false) (strings.Split s sep).
Proof.
  induction s as [|a s IH]; simpl; intros H.
  - by repeat constructor.
  - apply orb_false_elim in H as [Ha Hs]. specialize (IH Hs).
    destruct (Ascii.eqb a sep).
    + by constructor.
    + destruct (strings.Split s sep) as [|p ps].
      * repeat constructor. simpl. by rewrite Ha.
      * inversion IH; subst. constructor; [|done]. simpl. by rewrite Ha.
Qed.

Lemma parseDigits_nonneg (s : string) (acc v : Z) :
  0 ≤ acc → strconv.parseDigits acc s = Some v → 0 ≤ v.
Proof.
  revert acc. induction s as [|a s IH]; simpl; intros acc Hacc.
  - by intros [= <-].
  - unfold strconv.digitVal.
    destruct ((48 <=? Z.of_N (N_of_ascii a)) && (Z.of_N (N_of_ascii a) <=? 57)) eqn:E;
      [|discriminate].
    apply IH. apply andb_prop in E as [E1 E2]. lia.
Qed.

Lemma Atoi_nonneg (s : string) (v : Z) :
  hasMinus s = false → strconv.Atoi s = Some v → 0 ≤ v.
Proof.
  intros Hs. unfold strconv.Atoi.
  assert (Hcase : (∃ r, s = String "-" r) ∨
                  (match s with
                   | String "-"%char r => (true, r)
                   | String "+"%char r => (false, r)
                   | _ => (false, s)
                   end).1 = false).
  { destruct s as [|a s]; [by right|].
    destruct (Ascii.eqb_spec a "-") as [->|Hne]; [left; eauto|right].
    destruct a as [[] [] [] [] [] [] [] []]; try reflexivity. by destruct Hne. }
  destruct Hcase as [[r ->]|Hcase]; [discriminate|].
  destruct (match s with
            | String "-"%char r => (true, r)
            | String "+"%char r => (false, r)
            | _ => (false, s)
            end) as [neg body]. simpl in Hcase. subst neg.
  destruct body; [discriminate|].
  destruct (strconv.parseDigits 0 _) as [n|] eqn:E; [|discriminate].
  destruct ((minInt <=? n) && (n <=? maxInt)); [|discriminate].
  intros [= <-]. by eapply parseDigits_nonneg.
Qed.

Lemma convertTS_nonneg (ts : string) (v : Z) :
  hasMinus ts = false → convertTS ts = Ok v → 0 ≤ v.
Proof.
  intros Hts. unfold convertTS.
  pose proof (Split_no_minus ts "." Hts) as Hp.
  destruct (strings.Split ts ".") as [|s0 [|s1 rest]]; simpl.
  - discriminate.
  - by intros [= <-].
  - inversion Hp as [|? ? H0 Hp']; subst. inversion Hp' as [|? ? H1 _]; subst.
    destruct (strconv.Atoi (s0 +:+ s1)) eqn:E; [|discriminate].
    intros [= <-]. eapply Atoi_nonneg; [|exact E].
    by rewrite hasMinus_app, H0, H1.
Qed.

Lemma getReGroups_ts (e : Event) (groups : list string) (g2 : string) :
  getReGroups e = Ok groups → groups !! 2%nat = Some g2 → hasMinus g2 = false.
Proof.
  unfold getReGroups, index, grammar.FindAllStringSubmatch, regexp.FindAllStringSubmatch.
  repeat match goal with
    | |- context [if String.eqb ?a ?b then _ else _] => destruct (String.eqb a b)
    end;
    try (intros [= <-]; by rewrite lookup_nil);
    match goal with
    | |- context [regexp.FindStringSubmatch ?r ?n ?s] =>
        destruct (regexp.FindStringSubmatch r n s) eqn:E; simpl; [discriminate|];
        intros [= <-]; rewrite <- E; apply group_no_minus; reflexivity
    end.
Qed.

Lemma NewEvent_Ts_nonneg (line : string) (e : Event) :
  NewEvent line = Ok e → 0 ≤ Ts e.
Proof.
  unfold NewEvent, addFields. intros H. inv_bind H.
  destruct a as [|g0 gs].
  - injection H as <-. simpl. lia.
  - simpl in H. do 7 inv_bind H.
    apply addFieldsByCat_spec in H as (_ & _ & _ & Hts & _). simpl in Hts.
    rewrite Hts. eapply convertTS_nonneg; [|exact Ha2].
    eapply getReGroups_ts; [exact Ha|].
    unfold index in Ha1. destruct (_ !! _) eqn:E; [|discriminate]. congruence.
Qed.

(** C2: an "unfinished" line and the next "detached" line with the same
    process id and call name give one Complete event: the unfinished
    line emits nothing of its own (only the [lifetime] event of a new
    thread), the detached line emits exactly the merged event, whose
    duration is [detached.ts - unfinished.ts], whose timestamp is
    [unfinished.ts] and whose first-argument text is the stored one,
    and the entry leaves the pending table. *)
Theorem unfinished_detached_paired
    (st st1 st2 : ScanState) (lu ld : string) (between : list string) (u d : Event) :
  NewEvent lu = Ok u → Cat u = "unfinished"%string →
  NewEvent ld = Ok d → Cat d = "detached"%string →
  Pid u = Pid d → Name u = Name d →
  (∀ l m, l ∈ between → NewEvent l = Ok m →
          Cat m = "unfinished"%string ∨ Cat m = "detached"%string →
          preservedKey m ≠ preservedKey u) →
  scanLine st lu = Ok st1 →
  scanLines st1 between = Ok st2 →
  ∃ m st3,
    syscallEvents st1
      = syscallEvents st
        ++ (if default false (liveThreads st !! Tid u) then [] else [lifetimeBegin u])
    ∧ preserved st2 !! preservedKey d = Some u
    ∧ scanLine st2 ld = Ok st3
    ∧ syscallEvents st3 = syscallEvents st2 ++ [m]
    ∧ Ph m = "X"%string
    ∧ Dur m = Ts d - Ts u
    ∧ Ts m = Ts u
    ∧ A_First (args m) = A_First (args u)
    ∧ preserved st3 = delete (preservedKey d) (preserved st2)
    ∧ preserved st3 !! preservedKey d = None.
Proof.
  intros Hu Hcu Hd Hcd Hpid Hname Hbetween H1 H2.
  assert (Hkey : preservedKey d = preservedKey u).
  { unfold preservedKey. by rewrite Hpid, Hname. }
  pose proof (NewEvent_spec _ _ Hu) as (_ & Hput & Htsu & _ & _).
  pose proof (NewEvent_spec _ _ Hd) as (_ & Hpdt & Htsd & Hphd & _).
  pose proof (NewEvent_Ts_nonneg _ _ Hu) as Hu0.
  pose proof (NewEvent_Ts_nonneg _ _ Hd) as Hd0.
  unfold scanLine in H1. rewrite Hu in H1. simpl in H1.
  apply scanEvent_inv in H1 as [[Hc _]|[[_ ->]|[(Hc & _)|(_ & Hc & _)]]];
    try congruence.
  destruct (scanLines_between between _ st2 (preservedKey u) (Tid d) Hbetween H2)
    as [Hp Hl].
  simpl in Hp, Hl. rewrite lookup_insert_eq in Hp.
  assert (Halive : liveThreads st2 !! Tid d = Some true).
  { apply Hl. replace (Tid d) with (Tid u) by congruence. apply markAlive_alive. }
  exists (mergeDetached d u),
    (mkScan (syscallEvents st2 ++ [mergeDetached d u])
            (delete (preservedKey d) (preserved st2)) (liveThreads st2)).
  split_and!.
  - simpl. unfold markAlive. destruct (default false _); simpl; [|done].
    by rewrite app_nil_r.
  - by rewrite Hkey.
  - unfold scanLine. rewrite Hd. simpl. unfold scanEvent. rewrite Hcd. simpl.
    rewrite (markAlive_already _ _ Halive), Hkey, Hp. reflexivity.
  - reflexivity.
  - simpl. auto.
  - simpl. apply wrapInt_small. unfold inInt, minInt, maxInt in *. lia.
  - reflexivity.
  - reflexivity.
  - reflexivity.
  - simpl. apply lookup_delete_eq.
Qed.

Lemma unfinished_detached_paired_witness :
  ∃ m st3,
    syscallEvents st3
      = [lifetimeBegin (mkEvent EmptyString EmptyString EmptyString EmptyString
                                101 101 20 0 0 EmptyString zeroArgs);
         mkEvent "100 0.000025 getpid() = 100 <0.000002>" "getpid" "successful" "X"
                 100 100 25 2 0 EmptyString
                 (mkArgs EmptyString (S754_zero false) 0 "()" EmptyString "100" 0);
         m]
    ∧ Ph m = "X"%string ∧ Dur m = 10 ∧ Ts m = 20
    ∧ A_First (args m) = "(3,  "%string
    ∧ preserved st3 = ∅.
Proof.
  destruct (unfinished_detached_paired
              (mkScan [] ∅ (<[100 := true]> ∅))
              (mkScan [lifetimeBegin (mkEvent EmptyString EmptyString EmptyString EmptyString
                                              101 101 20 0 0 EmptyString zeroArgs)]
                      (<[("101read")%string :=
                           mkEvent "101 0.000020 read(3,  <unfinished ...>" "read" "unfinished" "B"
                                   101 101 20 0 0 EmptyString
                                   (mkArgs EmptyString (S754_zero false) 0 "(3,  " EmptyString EmptyString 0)]> ∅)
                      (<[101 := true]> (<[100 := true]> ∅)))
              (mkScan [lifetimeBegin (mkEvent EmptyString EmptyString EmptyString EmptyString
                                              101 101 20 0 0 EmptyString zeroArgs);
                       mkEvent "100 0.000025 getpid() = 100 <0.000002>" "getpid" "successful" "X"
                               100 100 25 2 0 EmptyString
                               (mkArgs EmptyString (S754_zero false) 0 "()" EmptyString "100" 0)]
                      (<[("101read")%string :=
                           mkEvent "101 0.000020 read(3,  <unfinished ...>" "read" "unfinished" "B"
                                   101 101 20 0 0 EmptyString
                                   (mkArgs EmptyString (S754_zero false) 0 "(3,  " EmptyString EmptyString 0)]> ∅)
                      (<[101 := true]> (<[100 := true]> ∅)))
              "101 0.000020 read(3,  <unfinished ...>"
              "101 0.000030 <... read resumed>abc, 3) = 3 <0.000005>"
              ["100 0.000025 getpid() = 100 <0.000002>"%string]
              (mkEvent "101 0.000020 read(3,  <unfinished ...>" "read" "unfinished" "B"
                       101 101 20 0 0 EmptyString
                       (mkArgs EmptyString (S754_zero false) 0 "(3,  " EmptyString EmptyString 0))
              (mkEvent "101 0.000030 <... read resumed>abc, 3) = 3 <0.000005>" "read" "detached" "X"
                       101 101 30 5 0 EmptyString
                       (mkArgs EmptyString (S754_zero false) 0 "abc, 3)" "abc, 3)" "3" 0)))
    as (m & st3 & _ & _ & _ & Hev & Hph & Hdur & Hts & Hfirst & Hpres & _).
  - vm_compute. reflexivity.
  - reflexivity.
  - vm_compute. reflexivity.
  - reflexivity.
  - reflexivity.
  - reflexivity.
  - intros l m Hl Hm Hc. apply list_elem_of_singleton in Hl. subst l.
    vm_compute in Hm. injection Hm as <-. simpl in Hc. destruct Hc; discriminate.
  - vm_compute. reflexivity.
  - vm_compute. reflexivity.
  - exists m, st3. split_and!; try done.
Defined.

(** ** Flow events *)

(** The new id of a creation call whose return value reads as a number. *)
Definition spawns (e : Event) : option Z :=
  if isCreation e then strconv.Atoi (A_ReturnValue (args e)) else None.

(** The flow events are the metadata events of category [clone]. *)
Definition isFlow (e : Event) : bool := String.eqb (Cat e) "clone".

(** The flow events expected for a list of events, the counter starting
    at [id]. *)
Fixpoint flowPairs (id : Z) (evs : list Event) : list Event :=
  match evs with
  | [] => []
  | e :: rest =>
      match spawns e with
      | Some childTid =>
          flowStart e id :: flowEnd e childTid id :: flowPairs (wrapUint64 (id + 1)) rest
      | None => flowPairs id rest
      end
  end.

(** The number of creation calls with a new id among [evs]. *)
Definition spawnCount (evs : list Event) : nat :=
  length (filter (fun e => is_Some (spawns e)) evs).

Section FlowFacts.

Variable globalEventSubmatch : string → list string.

Lemma synthPrctl_ok (st : SynthState) (e : Event) :
  ∃ st', synthPrctl st e = Ok st'
         ∧ metadataEvents st' = metadataEvents st ∧ nextFlowId st' = nextFlowId st.
Proof.
  unfold synthPrctl. destruct (_ && _); [|eauto].
  destruct (length _ =? 2)%nat eqn:E; simpl; [|eauto].
  apply Nat.eqb_eq in E.
  destruct (grammar.FindStringSubmatch grammar.regexpPrctl _) as [|m0 [|m1 ms]];
    try discriminate.
  simpl. eauto.
Qed.

Lemma synthExecve_ok (st : SynthState) (e : Event) :
  ∃ st', synthExecve st e = Ok st'
         ∧ metadataEvents st' = metadataEvents st ∧ nextFlowId st' = nextFlowId st.
Proof.
  unfold synthExecve. destruct (String.eqb _ _); [|eauto].
  destruct (length _ =? 4)%nat eqn:E; simpl; [|eauto].
  apply Nat.eqb_eq in E.
  destruct (grammar.FindStringSubmatch grammar.regexpExecve _)
    as [|m0 [|m1 [|m2 [|m3 ms]]]]; try discriminate.
  simpl. destruct (String.eqb m3 "..."); simpl; eauto.
Qed.

Lemma synthWrite_ok (st : SynthState) (e : Event) :
  ∃ st', synthWrite globalEventSubmatch st e = Ok st'
         ∧ filter isFlow (metadataEvents st') = filter isFlow (metadataEvents st)
         ∧ nextFlowId st' = nextFlowId st.
Proof.
  unfold synthWrite. destruct (String.eqb _ _); [|eauto].
  destruct (length _ =? 2)%nat eqn:E; simpl; [|eauto].
  apply Nat.eqb_eq in E.
  destruct (globalEventSubmatch _) as [|m0 [|m1 ms]]; try discriminate.
  simpl. eexists. split; [reflexivity|]. simpl.
  rewrite filter_app. simpl. rewrite filter_cons_False, filter_nil, app_nil_r; [done|].
  unfold isFlow. simpl. auto.
Qed.

Lemma synthFlow_flows (st : SynthState) (e : Event) :
  filter isFlow (metadataEvents (synthFlow st e))
  = filter isFlow (metadataEvents st)
    ++ match spawns e with
       | Some childTid => [flowStart e (nextFlowId st); flowEnd e childTid (nextFlowId st)]
       | None => []
       end
  ∧ nextFlowId (synthFlow st e)
    = match spawns e with
      | Some _ => wrapUint64 (nextFlowId st + 1)
      | None => nextFlowId st
      end.
Proof.
  unfold synthFlow, spawns. destruct (isCreation e); [|by rewrite app_nil_r].
  destruct (strconv.Atoi _) as [childTid|]; [|by rewrite app_nil_r].
  simpl. split; [|done].
  rewrite !filter_app. rewrite <- app_assoc. f_equal.
  unfold flowEnd. destruct (sharesAddressSpace e); reflexivity.
Qed.

Lemma synthLoop_flows (processThreads : gmap Z Z) (evs : list Event) (st : SynthState) :
  ∃ st',
    synthLoop globalEventSubmatch processThreads st evs
      = Ok (st', map (rewritePid processThreads) evs)
    ∧ filter isFlow (metadataEvents st')
      = filter isFlow (metadataEvents st)
        ++ flowPairs (nextFlowId st) (map (rewritePid processThreads) evs).
Proof.
  revert st. induction evs as [|e evs IH]; intros st; simpl.
  - eexists. split; [reflexivity|]. by rewrite app_nil_r.
  - unfold synthStep.
    destruct (synthPrctl_ok st (rewritePid processThreads e)) as (st1 & -> & Hm1 & Hn1).
    simpl.
    destruct (synthExecve_ok st1 (rewritePid processThreads e)) as (st2 & -> & Hm2 & Hn2).
    simpl.
    destruct (synthWrite_ok st2 (rewritePid processThreads e)) as (st3 & -> & Hm3 & Hn3).
    simpl.
    destruct (synthFlow_flows st3 (rewritePid processThreads e)) as [Hm4 Hn4].
    destruct (IH (synthFlow st3 (rewritePid processThreads e))) as (st' & -> & Hm).
    simpl. eexists. split; [reflexivity|].
    rewrite Hm, Hm4, Hn4, Hm3, Hm2, Hm1, Hn3, Hn2, Hn1.
    destruct (spawns (rewritePid processThreads e)); rewrite <- app_assoc; reflexivity.
Qed.

End FlowFacts.

Lemma wrapUint64_succ (id : Z) (k : nat) :
  wrapUint64 (wrapUint64 (id + 1) + Z.of_nat k) = wrapUint64 (id + Z.of_nat (S k)).
Proof.
  unfold wrapUint64. rewrite Zplus_mod_idemp_l. f_equal. lia.
Qed.

Lemma flowPairs_length (evs : list Event) (id : Z) :
  length (flowPairs id evs) = (2 * spawnCount evs)%nat.
Proof.
  revert id. unfold spawnCount.
  induction evs as [|e evs IH]; intros id; simpl; [done|].
  destruct (spawns e) as [c|] eqn:E.
  - rewrite filter_cons_True by (rewrite E; eauto). simpl. rewrite IH. lia.
  - rewrite filter_cons_False by (rewrite E; intros [? ?]; discriminate). apply IH.
Qed.

Lemma spawnCount_cons (e : Event) (evs : list Event) :
  spawnCount (e :: evs)
  = match spawns e with Some _ => S (spawnCount evs) | None => spawnCount evs end.
Proof.
  unfold spawnCount. destruct (spawns e) eqn:E.
  - by rewrite filter_cons_True by (rewrite E; eauto).
  - by rewrite filter_cons_False by (rewrite E; intros [? ?]; discriminate).
Qed.

Lemma flowPairs_app (l1 l2 : list Event) (id : Z) :
  0 ≤ id < 2 ^ 64 →
  flowPairs id (l1 ++ l2)
  = flowPairs id l1 ++ flowPairs (wrapUint64 (id + Z.of_nat (spawnCount l1))) l2.
Proof.
  revert id. induction l1 as [|e l1 IH]; intros id Hid.
  - simpl. unfold wrapUint64. rewrite Z.add_0_r, Z.mod_small by lia. done.
  - simpl flowPairs at 1 2. change ((e :: l1) ++ l2) with (e :: (l1 ++ l2)).
    simpl flowPairs at 1. rewrite spawnCount_cons.
    destruct (spawns e) as [c|].
    + rewrite IH by (unfold wrapUint64; apply Z.mod_pos_bound; lia).
      by rewrite wrapUint64_succ.
    + by rewrite IH.
Qed.

Lemma spawns_rewritePid (processThreads : gmap Z Z) (e : Event) :
  spawns (rewritePid processThreads e) = spawns e.
Proof. unfold rewritePid. by destruct (processThreads !! Tid e). Qed.

Lemma spawnCount_rewritePid (processThreads : gmap Z Z) (evs : list Event) :
  spawnCount (map (rewritePid processThreads) evs) = spawnCount evs.
Proof.
  induction evs as [|e evs IH]; [done|].
  simpl map. by rewrite !spawnCount_cons, spawns_rewritePid, IH.
Qed.

Lemma wrapUint64_small (z : Z) : 0 ≤ z < 2 ^ 64 → wrapUint64 z = z.
Proof. intros H. unfold wrapUint64. by apply Z.mod_small. Qed.

(** C6 (amended): for every creation call ([fork] or a name that starts
    with [clone]) whose return value reads as a number, the third loop
    appends exactly two flow events, next to each other: a FlowStart
    ("s") on the creator's process and thread ids and a FlowEnd ("f") on
    the new id, both one microsecond after the call and both with the
    same identifier; the identifier is the number of such calls seen
    before, so it goes up by one from a creation call to the next.  No
    other event produces a flow event. *)
Theorem flow_pair_per_new_id
    (globalEventSubmatch : string → list string) (processThreads : gmap Z Z)
    (before after : list Event) (c : Event) (childTid : Z) :
  isCreation c = true →
  strconv.Atoi (A_ReturnValue (args c)) = Some childTid →
  let evs := before ++ c :: after in
  let c' := rewritePid processThreads c in
  let id := wrapUint64 (Z.of_nat (spawnCount before)) in
  ∃ sst earlier later fs fe,
    synthLoop globalEventSubmatch processThreads synthInit evs
      = Ok (sst, map (rewritePid processThreads) evs)
    ∧ filter isFlow (metadataEvents sst) = earlier ++ [fs; fe] ++ later
    ∧ earlier = flowPairs 0 (map (rewritePid processThreads) before)
    ∧ later = flowPairs (wrapUint64 (id + 1)) (map (rewritePid processThreads) after)
    ∧ length earlier = (2 * spawnCount before)%nat
    ∧ length later = (2 * spawnCount after)%nat
    ∧ length (filter isFlow (metadataEvents sst)) = (2 * spawnCount evs)%nat
    ∧ fs = mkEvent EmptyString (Name c) "clone" "s" (Pid c') (Tid c)
                   (wrapInt (Ts c + 1)) 0 id EmptyString zeroArgs
    ∧ fe = mkEvent EmptyString (Name c) "clone" "f"
                   (if sharesAddressSpace c then Pid c' else childTid) childTid
                   (wrapInt (Ts c + 1)) 0 id EmptyString zeroArgs
    ∧ (inInt (Ts c + 1) → Ts fs = Ts c + 1 ∧ Ts fe = Ts c + 1)
    ∧ (Z.of_nat (spawnCount before) < 2 ^ 64 → id = Z.of_nat (spawnCount before)).
Proof.
  intros Hc Hr evs c' id.
  assert (Hs : spawns c = Some childTid) by (unfold spawns; by rewrite Hc).
  destruct (synthLoop_flows globalEventSubmatch processThreads evs synthInit)
    as (sst & Hloop & Hflows).
  simpl in Hflows. unfold evs in Hflows.
  rewrite map_app, flowPairs_app in Hflows by lia.
  simpl in Hflows. rewrite spawns_rewritePid, Hs, spawnCount_rewritePid in Hflows.
  rewrite Z.add_0_l in Hflows. fold c' id in Hflows.
  eexists sst, _, _, _, _. split; [exact Hloop|].
  split; [exact Hflows|].
  split; [reflexivity|]. split; [reflexivity|].
  split; [by rewrite flowPairs_length, spawnCount_rewritePid|].
  split; [by rewrite flowPairs_length, spawnCount_rewritePid|].
  split.
  { rewrite Hflows, !length_app. cbn [length].
    rewrite !flowPairs_length, !spawnCount_rewritePid.
    unfold evs, spawnCount. rewrite filter_app, length_app.
    rewrite filter_cons_True by (rewrite Hs; eauto).
    cbn [length]. lia. }
  assert (Hname : Name c' = Name c ∧ Tid c' = Tid c ∧ Ts c' = Ts c
                  ∧ sharesAddressSpace c' = sharesAddressSpace c).
  { unfold c', rewritePid. by destruct (processThreads !! Tid c). }
  destruct Hname as (Hn & Ht & Hts & Hsh).
  split; [unfold flowStart; by rewrite Hn, Ht, Hts|].
  split; [unfold flowEnd; rewrite Hn, Hts, Hsh; by destruct (sharesAddressSpace c)|].
  split.
  { intros Hin. unfold flowStart, flowEnd.
    destruct (sharesAddressSpace c'); simpl; rewrite Hts, wrapInt_small; done. }
  intros Hlt. unfold id. apply wrapUint64_small. lia.
Qed.

Lemma flow_pair_per_new_id_witness :
  ∃ sst earlier later fs fe,
    synthLoop (fun _ => []) (<[100 := 100]> ∅) synthInit
      ([] ++ mkEvent EmptyString "clone" "successful" "X" 100 100 1 10 0 EmptyString
                (mkArgs EmptyString (S754_zero false) 0 "(CLONE_THREAD, ...)" EmptyString "101" 0)
          :: [])
      = Ok (sst, [mkEvent EmptyString "clone" "successful" "X" 100 100 1 10 0 EmptyString
                    (mkArgs EmptyString (S754_zero false) 0 "(CLONE_THREAD, ...)" EmptyString "101" 0)])
    ∧ filter isFlow (metadataEvents sst) = earlier ++ [fs; fe] ++ later
    ∧ earlier = [] ∧ later = []
    ∧ fs = mkEvent EmptyString "clone" "clone" "s" 100 100 2 0 0 EmptyString zeroArgs
    ∧ fe = mkEvent EmptyString "clone" "clone" "f" 100 101 2 0 0 EmptyString zeroArgs.
Proof.
  destruct (flow_pair_per_new_id (fun _ => []) (<[100 := 100]> ∅) [] []
              (mkEvent EmptyString "clone" "successful" "X" 100 100 1 10 0 EmptyString
                 (mkArgs EmptyString (S754_zero false) 0 "(CLONE_THREAD, ...)" EmptyString "101" 0))
              101 eq_refl eq_refl)
    as (sst & earlier & later & fs & fe & H1 & H2 & H3 & H4 & _ & _ & _ & H5 & H6 & _).
  exists sst, earlier, later, fs, fe. split_and!; done.
Defined.

(** C6, as stated, fails: a [clone] call that failed is a creation call
    in the event list, and no flow event is made for it. *)
Lemma failed_clone_has_no_flow :
  let line := "100 0.000001 clone(child_stack=NULL, flags=CLONE_THREAD) = -1 EAGAIN (Resource temporarily unavailable) <0.000010>"%string in
  ∃ e sst evs,
    NewEvent line = Ok e
    ∧ isCreation e = true
    ∧ synthLoop (fun _ => []) (<[100 := 100]> ∅) synthInit [e] = Ok (sst, evs)
    ∧ filter isFlow (metadataEvents sst) = [].
Proof.
  cbv zeta. eexists _, _, _.
  split; [vm_compute; reflexivity|].
  split; [reflexivity|].
  split; [vm_compute; reflexivity|].
  reflexivity.
Qed.

(** ** Serialization of the flow identifier *)

Ltac not_in_list :=
  let H := fresh in
  intros H;
  repeat (apply elem_of_cons in H as [H|H]; [discriminate H|]);
  by apply elem_of_nil in H.

Lemma marshalEvent_flow_keys (name ph : string) (pid tid ts : Z) :
  marshalEvent (mkEvent EmptyString name "clone" ph pid tid ts 0 0 EmptyString zeroArgs)
  = Ok (JObject [("name", JString name); ("cat", JString "clone"); ("ph", JString ph);
                 ("pid", JInt pid); ("tid", JInt tid); ("ts", JInt ts);
                 ("args", JObject [])]).
Proof. reflexivity. Qed.

Lemma spawnCount_none (evs : list Event) :
  Forall (fun e => spawns e = None) evs → spawnCount evs = O.
Proof.
  induction 1 as [|e evs He _ IH]; [done|].
  by rewrite spawnCount_cons, He.
Qed.

Lemma flowPairs_none (evs : list Event) (id : Z) :
  Forall (fun e => spawns e = None) evs → flowPairs id evs = [].
Proof. induction 1 as [|e evs He _ IH]; simpl; [done|]. by rewrite He. Qed.

(** C10: the counter of flow identifiers starts at 0 and a zero [Id] is
    left out by the serializer, so the FlowStart and FlowEnd events of
    the first creation call that yields a new id carry [Id = 0] and are
    written without an [id] field. *)
Theorem first_flow_pair_has_no_id
    (globalEventSubmatch : string → list string) (processThreads : gmap Z Z)
    (before after : list Event) (c : Event) (childTid : Z) :
  Forall (fun e => spawns e = None) before →
  isCreation c = true →
  strconv.Atoi (A_ReturnValue (args c)) = Some childTid →
  nextFlowId synthInit = 0
  ∧ ∃ sst fs fe later js je,
      synthLoop globalEventSubmatch processThreads synthInit (before ++ c :: after)
        = Ok (sst, map (rewritePid processThreads) (before ++ c :: after))
      ∧ filter isFlow (metadataEvents sst) = fs :: fe :: later
      ∧ Ph fs = "s"%string ∧ Ph fe = "f"%string
      ∧ Tid fs = Tid c ∧ Tid fe = childTid
      ∧ Id fs = 0 ∧ Id fe = 0
      ∧ marshalEvent fs = Ok js ∧ marshalEvent fe = Ok je
      ∧ "id"%string ∉ jsonKeys js ∧ "id"%string ∉ jsonKeys je.
Proof.
  intros Hb Hc Hr. split; [reflexivity|].
  assert (Hs : spawns c = Some childTid) by (unfold spawns; by rewrite Hc).
  destruct (synthLoop_flows globalEventSubmatch processThreads (before ++ c :: after) synthInit)
    as (sst & Hloop & Hflows).
  simpl in Hflows.
  rewrite map_app, flowPairs_app in Hflows by lia.
  rewrite flowPairs_none in Hflows
    by (apply Forall_fmap; eapply Forall_impl; [exact Hb|];
        simpl; intros e He; by rewrite spawns_rewritePid).
  rewrite spawnCount_rewritePid, (spawnCount_none _ Hb) in Hflows.
  simpl in Hflows. rewrite spawns_rewritePid, Hs in Hflows.
  change (wrapUint64 (0 + Z.of_nat 0)) with 0 in Hflows.
  assert (Ht : Tid (rewritePid processThreads c) = Tid c).
  { unfold rewritePid. by destruct (processThreads !! Tid c). }
  unfold flowStart, flowEnd in Hflows.
  destruct (sharesAddressSpace (rewritePid processThreads c));
    (eexists sst, _, _, _, _, _;
     split; [exact Hloop|]; split; [exact Hflows|];
     simpl; rewrite !marshalEvent_flow_keys;
     split_and!; try done; try exact Ht; simpl; not_in_list).
Qed.

Lemma first_flow_pair_has_no_id_witness :
  ∃ sst fs fe later js je,
    synthLoop (fun _ => []) (<[100 := 100]> ∅) synthInit
      ([lifetimeBegin (mkEvent EmptyString EmptyString EmptyString EmptyString
                               100 100 1 0 0 EmptyString zeroArgs)]
       ++ mkEvent EmptyString "clone" "successful" "X" 100 100 1 10 0 EmptyString
            (mkArgs EmptyString (S754_zero false) 0 "(CLONE_THREAD, ...)" EmptyString "101" 0)
       :: [])
    = Ok (sst, [lifetimeBegin (mkEvent EmptyString EmptyString EmptyString EmptyString
                                       100 100 1 0 0 EmptyString zeroArgs);
                mkEvent EmptyString "clone" "successful" "X" 100 100 1 10 0 EmptyString
                  (mkArgs EmptyString (S754_zero false) 0 "(CLONE_THREAD, ...)" EmptyString "101" 0)])
    ∧ filter isFlow (metadataEvents sst) = fs :: fe :: later
    ∧ Id fs = 0 ∧ Id fe = 0
    ∧ marshalEvent fs = Ok js ∧ marshalEvent fe = Ok je
    ∧ "id"%string ∉ jsonKeys js ∧ "id"%string ∉ jsonKeys je.
Proof.
  destruct (first_flow_pair_has_no_id (fun _ => []) (<[100 := 100]> ∅)
              [lifetimeBegin (mkEvent EmptyString EmptyString EmptyString EmptyString
                                      100 100 1 0 0 EmptyString zeroArgs)]
              []
              (mkEvent EmptyString "clone" "successful" "X" 100 100 1 10 0 EmptyString
                 (mkArgs EmptyString (S754_zero false) 0 "(CLONE_THREAD, ...)" EmptyString "101" 0))
              101)
    as (_ & sst & fs & fe & later & js & je & H1 & H2 & _ & _ & _ & _ & H3 & H4 & H5 & H6 & H7 & H8).
  - repeat constructor.
  - reflexivity.
  - reflexivity.
  - exists sst, fs, fe, later, js, je. split_and!; done.
Defined.

(** ** CPU utilization of a sample *)

(** [100 * delta_cpu / cores / delta_time], each step rounded as a
    [float64]. *)
Definition utilization (cores : spec_float) (deltaCpu deltaMicros : Z) : spec_float :=
  float64.div
    (float64.div (float64.mul (float64.ofZ 100) (float64.ofZ deltaCpu)) cores)
    (float64.ofZ deltaMicros).

(** The two files of a tick are read without error and give these values. *)
Definition tickReads (t : tick) (cpu memory : Z) : Prop :=
  readFlatKeyed (cpuStat t) "usage_usec" = Some cpu
  ∧ readFlatKeyed (memoryStat t) "anon" = Some memory.

Definition tickOk (t : tick) : Prop := ∃ cpu memory, tickReads t cpu memory.

Lemma runTick_reads (r : ResourceMonitor) (t : tick) (cpu memory : Z) :
  tickReads t cpu memory →
  runTick r t
  = Some (mkMonitor (vCPUs r) (now t) cpu
            (samples r
             ++ [mkSample (now t)
                   (utilization (vCPUs r) (wrapUint64 (cpu - lastCPUUsageUsec r))
                      (time.Microseconds (time.Sub (now t) (lastTimestamp r))))
                   memory])).
Proof. intros [Hc Hm]. unfold runTick. rewrite Hc, Hm. reflexivity. Qed.

Lemma Run_snoc (r : ResourceMonitor) (before : list tick) (t : tick) :
  Forall tickOk before →
  Run r (before ++ [t])
  = match runTick (Run r before) t with
    | Some r' => r'
    | None => Run r before
    end.
Proof.
  intros H. revert r. induction H as [|t0 before (cpu & memory & Ht0) _ IH]; intros r.
  - simpl. by destruct (runTick r t).
  - simpl. rewrite (runTick_reads _ _ _ _ Ht0). apply IH.
Qed.

Lemma Run_vCPUs (r : ResourceMonitor) (ticks : list tick) :
  vCPUs (Run r ticks) = vCPUs r.
Proof.
  revert r. induction ticks as [|t ticks IH]; intros r; simpl; [done|].
  unfold runTick.
  destruct (readFlatKeyed (cpuStat t) _); [|done].
  destruct (readFlatKeyed (memoryStat t) _); [|done].
  by rewrite IH.
Qed.

(** C8: the CPU utilization of a sample is 100 times the difference of
    the current and the previous [usage_usec] reading, divided by the
    allotted cores, divided by the microseconds between the two
    readings (the previous reading of the first sample is the baseline
    of the monitor); readings of 1000 and 1500 taken 500 microseconds
    apart with 2 cores give 50.0. *)
Theorem cpu_utilization_of_sample
    (r : ResourceMonitor) (before : list tick) (prev cur : tick)
    (cpuPrev memPrev cpuCur memCur cpu0 mem0 : Z) (first : tick) :
  Forall tickOk before →
  tickReads prev cpuPrev memPrev →
  tickReads cur cpuCur memCur →
  tickReads first cpu0 mem0 →
  (∃ older s,
      samples (Run r (before ++ [prev; cur]))
      = older ++ [s;
                  mkSample (now cur)
                    (utilization (vCPUs r) (wrapUint64 (cpuCur - cpuPrev))
                       (time.Microseconds (time.Sub (now cur) (now prev))))
                    memCur]
      ∧ sample_ts s = now prev)
  ∧ samples (Run r [first])
    = samples r
      ++ [mkSample (now first)
            (utilization (vCPUs r) (wrapUint64 (cpu0 - lastCPUUsageUsec r))
               (time.Microseconds (time.Sub (now first) (lastTimestamp r))))
            mem0]
  ∧ utilization (allottedCores 200000 100000) (wrapUint64 (1500 - 1000))
      (time.Microseconds (time.Sub 500000 0))
    = float64.ofZ 50
  ∧ float64.ofZ 50 = S754_finite false (50 * 2 ^ 47) (-47).
Proof.
  intros Hb Hp Hc Hf. split_and!.
  - replace (before ++ [prev; cur]) with ((before ++ [prev]) ++ [cur])
      by (by rewrite <- app_assoc).
    rewrite Run_snoc by (apply Forall_app; split; [done|]; repeat constructor;
                         by exists cpuPrev, memPrev).
    rewrite (Run_snoc _ _ _ Hb).
    rewrite (runTick_reads _ _ _ _ Hp). rewrite (runTick_reads _ _ _ _ Hc).
    simpl. rewrite Run_vCPUs.
    eexists _, _. split; [rewrite <- app_assoc; reflexivity | reflexivity].
  - simpl. by rewrite (runTick_reads _ _ _ _ Hf).
  - vm_compute. reflexivity.
  - vm_compute. reflexivity.
Qed.

Lemma cpu_utilization_of_sample_witness :
  let nl := String "010"%char EmptyString in
  let r := mkMonitor (allottedCores 200000 100000) 7000 400 [] in
  let prev := mkTick 507000 (Some ("usage_usec 1000" +:+ nl +:+ "user_usec 600"))
                     (Some ("anon 4096" +:+ nl +:+ "file 0")) in
  let cur := mkTick 1007000 (Some ("usage_usec 1500" +:+ nl +:+ "user_usec 900"))
                    (Some ("anon 8192" +:+ nl +:+ "file 0")) in
  ∃ older s,
    samples (Run r ([] ++ [prev; cur]))
    = older ++ [s; mkSample 1007000 (S754_finite false (50 * 2 ^ 47) (-47)) 8192].
Proof.
  intros nl r prev cur.
  destruct (cpu_utilization_of_sample r [] prev cur 1000 4096 1500 8192 1000 4096 prev)
    as [(older & s & H & _) _].
  - constructor.
  - split; vm_compute; reflexivity.
  - split; vm_compute; reflexivity.
  - split; vm_compute; reflexivity.
  - exists older, s. exact H.
Defined.

(** ** Ancestry *)

(** [e'] is [e] with another process id. *)
Definition sameButPid (e e' : Event) : Prop := e' = setPid e (Pid e').

Lemma sameButPid_refl (e : Event) : sameButPid e e.
Proof. by destruct e. Qed.

Lemma sameButPid_trans (e1 e2 e3 : Event) :
  sameButPid e1 e2 → sameButPid e2 e3 → sameButPid e1 e3.
Proof. unfold sameButPid. intros -> ->. reflexivity. Qed.

Lemma sameButPid_fields (e e' : Event) :
  sameButPid e e' →
  Tid e' = Tid e ∧ spawns e' = spawns e ∧ sharesAddressSpace e' = sharesAddressSpace e.
Proof. unfold sameButPid. intros ->. done. Qed.

Lemma rewritePid_same (processThreads : gmap Z Z) (e : Event) :
  sameButPid e (rewritePid processThreads e).
Proof.
  unfold rewritePid. destruct (processThreads !! Tid e); [reflexivity|].
  apply sameButPid_refl.
Qed.

Lemma rewritePid_Pid (processThreads : gmap Z Z) (e : Event) :
  Pid (rewritePid processThreads e) = default (Pid e) (processThreads !! Tid e).
Proof. unfold rewritePid. by destruct (processThreads !! Tid e). Qed.

Lemma recordChild_lookup (processThreads : gmap Z Z) (e : Event) (k : Z) :
  recordChild processThreads e !! k
  = match spawns e with
    | Some childTid =>
        if decide (childTid = k)
        then Some (if sharesAddressSpace e then Pid e else childTid)
        else processThreads !! k
    | None => processThreads !! k
    end.
Proof.
  unfold recordChild, spawns. destruct (isCreation e); [|done].
  destruct (strconv.Atoi _) as [childTid|]; [|done].
  destruct (sharesAddressSpace e); rewrite lookup_insert; by destruct (decide _).
Qed.

Section Ancestry.

(** The process [A] and the thread [T1] it creates. *)
Variables A T1 : Z.

(** [A] is a process: its events carry its own id as process id, and no
    call creates [A] as a thread. *)
Definition ownsItself (evs : list Event) : Prop :=
  Forall (fun e => Tid e = A → Pid e = A) evs.
Definition neverCreatedAsThread (evs : list Event) : Prop :=
  Forall (fun e => spawns e = Some A → sharesAddressSpace e = false) evs.

(** [T1] is created by [A] only, as a thread. *)
Definition createdByA (evs : list Event) : Prop :=
  Forall (fun e => spawns e = Some T1 → Tid e = A ∧ sharesAddressSpace e = true) evs.

(** [A] is not in the table, or owns itself there. *)
Definition tableKeepsA (processThreads : gmap Z Z) : Prop :=
  processThreads !! A = None ∨ processThreads !! A = Some A.

Lemma ancestryPass_spec (evs : list Event) (processThreads : gmap Z Z) :
  tableKeepsA processThreads →
  ownsItself evs → neverCreatedAsThread evs → createdByA evs →
  ∃ pt evs',
    ancestryPass processThreads evs = (pt, evs')
    ∧ Forall2 sameButPid evs evs'
    ∧ tableKeepsA pt
    ∧ ownsItself evs'
    ∧ (Exists (fun e => spawns e = Some T1) evs → pt !! T1 = Some A)
    ∧ (processThreads !! T1 = Some A →
       pt !! T1 = Some A ∧ Forall (fun e => Tid e = T1 → Pid e = A) evs').
Proof.
  revert processThreads.
  induction evs as [|e evs IH]; intros processThreads Hk Ho Hn Hc.
  - exists processThreads, []. split_and!; try done.
    intros H. by apply Exists_nil in H.
  - apply Forall_cons in Ho as [Ho1 Ho]. apply Forall_cons in Hn as [Hn1 Hn].
    apply Forall_cons in Hc as [Hc1 Hc].
    set (e' := rewritePid processThreads e).
    pose proof (rewritePid_same processThreads e) as Hsame. fold e' in Hsame.
    destruct (sameButPid_fields _ _ Hsame) as (Htid & Hsp & Hsh).
    assert (HpidA : Tid e = A → Pid e' = A).
    { intros Ht. unfold e'. rewrite rewritePid_Pid, Ht.
      destruct Hk as [-> | ->]; simpl; auto. }
    assert (Hk' : tableKeepsA (recordChild processThreads e')).
    { unfold tableKeepsA. rewrite recordChild_lookup, Hsp, Hsh.
      destruct (spawns e) as [child|] eqn:Es; [|exact Hk].
      destruct (decide (child = A)) as [->|]; [|exact Hk].
      rewrite Hn1 by done. by right. }
    assert (Hstep : spawns e = Some T1 ∨ processThreads !! T1 = Some A →
                    recordChild processThreads e' !! T1 = Some A).
    { intros Hor. rewrite recordChild_lookup, Hsp, Hsh.
      destruct (spawns e) as [child|] eqn:Es.
      - destruct (decide (child = T1)) as [->|Hne].
        + destruct (Hc1 eq_refl) as [HtA ->]. by rewrite HpidA.
        + destruct Hor as [[= ?]|?]; [congruence|done].
      - destruct Hor as [?|?]; [discriminate|done]. }
    destruct (IH (recordChild processThreads e') Hk' Ho Hn Hc)
      as (pt & evs' & Hpass & Hall & Hkpt & Ho' & Hex & Hq).
    exists pt, (e' :: evs'). simpl. fold e'. rewrite Hpass.
    split_and!; try done.
    + by constructor.
    + constructor; [|done]. rewrite Htid. exact HpidA.
    + intros Hx. apply Exists_cons in Hx as [Hx|Hx]; [|by apply Hex].
      apply Hq, Hstep. by left.
    + intros HT. destruct (Hq (Hstep (or_intror HT))) as [Hq1 Hq2].
      split; [done|]. constructor; [|done].
      rewrite Htid. intros Ht. unfold e'. by rewrite rewritePid_Pid, Ht, HT.
Qed.

Lemma Forall2_sameButPid_preserves (P : Event → Prop) (evs evs' : list Event) :
  (∀ e e', sameButPid e e' → P e → P e') →
  Forall2 sameButPid evs evs' → Forall P evs → Forall P evs'.
Proof.
  intros HP H. induction H as [|e e' evs evs' He _ IH]; [done|].
  intros Hf. apply Forall_cons in Hf as [H1 H2]. constructor; eauto.
Qed.

End Ancestry.

Lemma Forall2_sameButPid_trans (l1 l2 l3 : list Event) :
  Forall2 sameButPid l1 l2 → Forall2 sameButPid l2 l3 → Forall2 sameButPid l1 l3.
Proof.
  intros H. revert l3. induction H as [|e1 e2 l1 l2 He _ IH]; intros l3 H3.
  - by inversion H3.
  - inversion H3; subst. constructor; eauto using sameButPid_trans.
Qed.

(** C1: process [A] creates thread [T1] with [CLONE_THREAD], and an
    event of [T1] is in the list before the line with the return of the
    creation call.  After the seeding of the table and the two passes
    every event of thread [T1] has [A] as its process id (the events are
    otherwise unchanged), and the table maps [T1] to [A]. *)
Theorem ancestry_converges (A T1 : Z) (before between after : list Event) (t c : Event) :
  let evs := before ++ t :: between ++ c :: after in
  Tid t = T1 →
  Tid c = A →
  isCreation c = true →
  strconv.Atoi (A_ReturnValue (args c)) = Some T1 →
  sharesAddressSpace c = true →
  ownsItself A evs →
  neverCreatedAsThread A evs →
  createdByA A T1 evs →
  ∃ processThreads evs',
    reconstruct evs = Ok (processThreads, evs')
    ∧ Forall2 sameButPid evs evs'
    ∧ Forall (fun e => Tid e = T1 → Pid e = A) evs'
    ∧ processThreads !! T1 = Some A.
Proof.
  intros evs Ht HcA Hcr Hret Hsh Ho Hn Hc.
  assert (Hsp : spawns c = Some T1) by (unfold spawns; by rewrite Hcr).
  assert (Hex : Exists (fun e => spawns e = Some T1) evs).
  { unfold evs. apply Exists_app. right. apply Exists_cons. right.
    apply Exists_app. right. by apply Exists_cons_hd. }
  unfold reconstruct.
  assert (Hhead : ∃ first, index evs 0 = Ok first ∧ first ∈ evs).
  { destruct evs as [|first rest]; [by apply Exists_nil in Hex|].
    exists first. split; [reflexivity|by left]. }
  destruct Hhead as (first & -> & Hfirst). cbn [mbind result_bind].
  assert (Hk0 : tableKeepsA A (<[Tid first := Pid first]> ∅)).
  { unfold tableKeepsA. rewrite lookup_insert.
    destruct (decide (Tid first = A)) as [HA|]; [right|by left].
    f_equal. by apply (proj1 (Forall_forall _ _) Ho first). }
  destruct (ancestryPass_spec A T1 evs _ Hk0 Ho Hn Hc)
    as (pt1 & evs1 & -> & Hsame1 & Hk1 & Ho1 & Hq1 & _).
  assert (Hn1 : neverCreatedAsThread A evs1).
  { eapply Forall2_sameButPid_preserves; [|exact Hsame1|exact Hn].
    intros e e' He. destruct (sameButPid_fields _ _ He) as (_ & -> & ->). done. }
  assert (Hc1 : createdByA A T1 evs1).
  { eapply Forall2_sameButPid_preserves; [|exact Hsame1|exact Hc].
    intros e e' He. destruct (sameButPid_fields _ _ He) as (-> & -> & ->). done. }
  destruct (ancestryPass_spec A T1 evs1 pt1 Hk1 Ho1 Hn1 Hc1)
    as (pt2 & evs2 & -> & Hsame2 & _ & _ & _ & Hq2).
  destruct (Hq2 (Hq1 Hex)) as [HT Hall].
  exists pt2, evs2. split_and!; try done.
  by eapply Forall2_sameButPid_trans.
Qed.

(** The events of a log in which thread 101 is seen before the return of
    the [clone] call of process 100 that creates it. *)
Definition sampleCall (name : string) (tid ts dur : Z) (first ret : string) : Event :=
  mkEvent EmptyString name "successful" "X" tid tid ts dur 0 EmptyString
          (mkArgs EmptyString (S754_zero false) 0 first EmptyString ret 0).

Definition earlyThread : Event := sampleCall "getpid" 101 5 1 "()" "100".
Definition cloneCall : Event := sampleCall "clone" 100 10 10 "(CLONE_THREAD, ...)" "101".
Definition lateThread : Event := sampleCall "write" 101 20 5 "(1, x, 1)" "1".

Definition forwardReference : list Event :=
  [lifetimeBegin earlyThread; earlyThread; lifetimeBegin cloneCall; cloneCall; lateThread].

Lemma ancestry_converges_witness :
  ∃ processThreads evs',
    reconstruct ([] ++ lifetimeBegin earlyThread
                 :: [earlyThread; lifetimeBegin cloneCall] ++ cloneCall :: [lateThread])
      = Ok (processThreads, evs')
    ∧ Forall (fun e => Tid e = 101 → Pid e = 100) evs'
    ∧ processThreads !! 101 = Some 100.
Proof.
  destruct (ancestry_converges 100 101 [] [earlyThread; lifetimeBegin cloneCall] [lateThread]
              (lifetimeBegin earlyThread) cloneCall)
    as (pt & evs' & H1 & _ & H2 & H3).
  - reflexivity.
  - reflexivity.
  - reflexivity.
  - reflexivity.
  - reflexivity.
  - repeat constructor; simpl; lia.
  - repeat constructor; simpl; discriminate.
  - repeat constructor; simpl; try discriminate; intros _; done.
  - exists pt, evs'. done.
Defined.

(** The same list after the first pass only: the events of thread 101
    that precede the [clone] line still carry 101 as process id. *)
Example one_pass_is_not_enough :
  map (fun e => (Tid e, Pid e))
      (ancestryPass (<[Tid (lifetimeBegin earlyThread) := Pid (lifetimeBegin earlyThread)]> ∅)
                    forwardReference).2
  = [(101, 101); (101, 101); (100, 100); (100, 100); (101, 100)]
  ∧ (r ← reconstruct forwardReference; Ok (map (fun e => (Tid e, Pid e)) r.2))
    = Ok [(101, 100); (101, 100); (100, 100); (100, 100); (101, 100)].
Proof. split; vm_compute; reflexivity. Qed.

(** ** The merge *)

Definition TsLe (a b : Event) : Prop := Ts a ≤ Ts b.

(** Non-decreasing timestamps. *)
Definition sortedTs (l : list Event) : Prop := Sorted TsLe l.

Definition total (events : list (list Event)) : nat :=
  foldr (fun l n => (length l + n)%nat) O events.

Definition nonEmpty (l : list Event) : bool :=
  match l with [] => false | _ => true end.

(** The head of the list is later than [x] (not earlier than [x]); the
    first two say nothing of an empty list, the last two exclude it. *)
Definition headLater (x : Event) (l : list Event) : Prop :=
  match l with [] => True | y :: _ => Ts x < Ts y end.
Definition headNotEarlier (x : Event) (l : list Event) : Prop :=
  match l with [] => True | y :: _ => Ts x ≤ Ts y end.
Definition hdAfter (x : Event) (l : list Event) : Prop :=
  match l with [] => False | y :: _ => Ts x < Ts y end.
Definition hdNotBefore (x : Event) (l : list Event) : Prop :=
  match l with [] => False | y :: _ => Ts x ≤ Ts y end.

Lemma skipEmpty_spec (events : list (list Event)) :
  skipEmpty events = (filter (fun l => nonEmpty l = true) events, total events).
Proof.
  induction events as [|l events IH]; [done|].
  simpl. rewrite IH. destruct l as [|x l].
  - simpl. by rewrite filter_cons_False by (simpl; discriminate).
  - simpl. by rewrite filter_cons_True by done.
Qed.

Lemma total_app (l1 l2 : list (list Event)) : total (l1 ++ l2) = (total l1 + total l2)%nat.
Proof. induction l1 as [|l l1 IH]; simpl; [done|]. rewrite IH. lia. Qed.

Lemma total_filter (events : list (list Event)) :
  total (filter (fun l => nonEmpty l = true) events) = total events.
Proof.
  induction events as [|l events IH]; [done|].
  destruct l as [|x l].
  - by rewrite filter_cons_False by (simpl; discriminate).
  - rewrite filter_cons_True by done. simpl. by rewrite IH.
Qed.

Lemma total_concat (events : list (list Event)) : length (concat events) = total events.
Proof. induction events as [|l events IH]; simpl; [done|]. by rewrite length_app, IH. Qed.

Lemma pickFirst_keeps (post : list (list Event)) (i idx : nat) (x : Event) :
  Forall (hdNotBefore x) post → pickFirst post i idx x = Ok (idx, x).
Proof.
  intros H. revert i. induction H as [|l post Hl _ IH]; intros i; simpl; [done|].
  destruct l as [|y l]; [done|]. simpl in *.
  destruct (Z.leb_spec (Ts x) (Ts y)); [apply IH|lia].
Qed.

Lemma pickFirst_finds (pre post : list (list Event)) (x : Event) (tl : list Event)
    (i idx : nat) (firstEvent : Event) :
  Forall (hdAfter x) pre → Forall (hdNotBefore x) post →
  Ts x < Ts firstEvent →
  pickFirst (pre ++ (x :: tl) :: post) i idx firstEvent
  = Ok ((i + length pre + 1)%nat, x).
Proof.
  intros Hpre Hpost. revert i idx firstEvent.
  induction Hpre as [|l pre Hl _ IH]; intros i idx firstEvent Hlt; simpl.
  - destruct (Z.leb_spec (Ts firstEvent) (Ts x)); [lia|].
    rewrite (pickFirst_keeps _ _ _ _ Hpost). do 2 f_equal. lia.
  - destruct l as [|y l]; [done|]. simpl in *.
    destruct (Z.leb_spec (Ts firstEvent) (Ts y)).
    + rewrite IH by done. do 2 f_equal. lia.
    + rewrite IH by done. do 2 f_equal. lia.
Qed.

(** The step of the outer loop when the lists are split around the one
    whose head is the leftmost minimum. *)
Lemma mergeLoop_step (fuel : nat) (pre post : list (list Event)) (x : Event)
    (tl merged : list Event) :
  Forall (hdAfter x) pre → Forall (hdNotBefore x) post →
  mergeLoop (S fuel) (pre ++ (x :: tl) :: post) merged
  = mergeLoop fuel (pre ++ (if nonEmpty tl then [tl] else []) ++ post) (merged ++ [x]).
Proof.
  intros Hpre Hpost.
  assert (Hpick : ∃ head firstEvent,
             index (pre ++ (x :: tl) :: post) 0 = Ok head
             ∧ index head 0 = Ok firstEvent
             ∧ pickFirst (drop 1 (pre ++ (x :: tl) :: post)) 0 0 firstEvent
               = Ok (length pre, x)).
  { destruct Hpre as [|l pre Hl Hpre].
    - exists (x :: tl), x. split_and!; try done. simpl. rewrite drop_0.
      by apply pickFirst_keeps.
    - destruct l as [|y l]; [done|]. exists (y :: l), y. split_and!; try done.
      simpl. rewrite drop_0. rewrite pickFirst_finds by done.
      do 2 f_equal. lia. }
  destruct Hpick as (head & firstEvent & Hh & Hf & Hp).
  cbn [mergeLoop].
  destruct (pre ++ (x :: tl) :: post) as [|l0 ls] eqn:E.
  { by destruct pre. }
  rewrite <- E in *. clear E l0 ls.
  rewrite Hh. cbn [mbind result_bind]. rewrite Hf. cbn [mbind result_bind].
  rewrite Hp. cbn [mbind result_bind].
  assert (Hidx : index (pre ++ (x :: tl) :: post) (length pre) = Ok (x :: tl)).
  { unfold index. by rewrite list_lookup_middle. }
  rewrite Hidx. cbn [mbind result_bind].
  change (index (x :: tl) 0) with (Ok x). cbn [mbind result_bind].
  destruct tl as [|y tl]; cbn [length Nat.eqb nonEmpty].
  - rewrite take_app_length.
    replace (pre ++ [x] :: post) with ((pre ++ [[x]]) ++ post) by (by rewrite <- app_assoc).
    rewrite drop_app_length' by (rewrite length_app; simpl; lia).
    reflexivity.
  - rewrite insert_app_r_alt by lia. rewrite Nat.sub_diag. reflexivity.
Qed.

Lemma hdNotBefore_weaken (x y : Event) (l : list Event) :
  Ts y ≤ Ts x → hdNotBefore x l → hdNotBefore y l.
Proof. destruct l; simpl; [done|lia]. Qed.

Lemma hdAfter_notBefore (x y : Event) (l : list Event) :
  Ts y ≤ Ts x → hdAfter x l → hdNotBefore y l.
Proof. destruct l; simpl; [done|lia]. Qed.

(** Among lists that are not empty there is one whose head is the
    leftmost minimum. *)
Lemma leftmost_minimum (events : list (list Event)) :
  events ≠ [] → Forall (fun l => nonEmpty l = true) events →
  ∃ pre x tl post,
    events = pre ++ (x :: tl) :: post
    ∧ Forall (hdAfter x) pre ∧ Forall (hdNotBefore x) post.
Proof.
  induction events as [|l events IH]; [done|]. intros _ Hne.
  apply Forall_cons in Hne as [Hl Hne].
  destruct l as [|y ytl]; [done|].
  destruct events as [|l' events'].
  { exists [], y, ytl, []. split_and!; by constructor. }
  destruct (IH ltac:(done) Hne) as (pre & x & tl & post & E & Hpre & Hpost).
  rewrite E. destruct (Z.le_gt_cases (Ts y) (Ts x)) as [Hle|Hgt].
  - exists [], y, ytl, (pre ++ (x :: tl) :: post). split_and!; [done|constructor|].
    apply Forall_app. split.
    + eapply Forall_impl; [exact Hpre|]. intros l0. by apply hdAfter_notBefore.
    + constructor; [exact Hle|].
      eapply Forall_impl; [exact Hpost|]. intros l0. by apply hdNotBefore_weaken.
  - exists ((y :: ytl) :: pre), x, tl, post. split_and!; [done| |done].
    constructor; [simpl; lia|done].
Qed.

Lemma total_zero (events : list (list Event)) :
  Forall (fun l => nonEmpty l = true) events → total events = O → events = [].
Proof.
  intros H. destruct H as [|l events Hl _]; [done|].
  destruct l; [done|]. simpl. lia.
Qed.

Lemma stronglySorted_from_head (x y : Event) (l : list Event) :
  StronglySorted TsLe (y :: l) → Ts x ≤ Ts y → Forall (TsLe x) (y :: l).
Proof.
  intros H Hxy. apply StronglySorted_inv in H as [_ Hall].
  constructor; [exact Hxy|].
  eapply Forall_impl; [exact Hall|]. unfold TsLe. intros z. lia.
Qed.

Lemma concat_middle (pre post : list (list Event)) (tl : list Event) :
  concat (pre ++ (if nonEmpty tl then [tl] else []) ++ post)
  = concat pre ++ tl ++ concat post.
Proof.
  rewrite !concat_app. destruct tl; simpl; [done|]. by rewrite app_nil_r.
Qed.

Lemma mergeLoop_total (n : nat) (events : list (list Event)) :
  Forall (fun l => nonEmpty l = true) events →
  (total events ≤ n)%nat →
  ∃ m, (∀ merged, mergeLoop n events merged = Ok (merged ++ m))
       ∧ m ≡ₚ concat events
       ∧ (Forall (StronglySorted TsLe) events → StronglySorted TsLe m).
Proof.
  revert events. induction n as [|n IH]; intros events Hne Hn.
  - rewrite (total_zero events Hne) by lia. exists []. split_and!.
    + intros merged. simpl. by rewrite app_nil_r.
    + done.
    + constructor.
  - destruct (decide (events = [])) as [->|Hnil].
    { exists []. split_and!; [|done|constructor].
      intros merged. simpl. by rewrite app_nil_r. }
    destruct (leftmost_minimum events Hnil Hne)
      as (pre & x & tl & post & -> & Hpre & Hpost).
    apply Forall_app in Hne as [Hne1 Hne2]. apply Forall_cons in Hne2 as [_ Hne2].
    rewrite total_app in Hn. simpl in Hn.
    destruct (IH (pre ++ (if nonEmpty tl then [tl] else []) ++ post))
      as (m & Hm & Hperm & Hsorted).
    { apply Forall_app. split; [done|]. apply Forall_app. split; [|done].
      destruct tl; by repeat constructor. }
    { rewrite !total_app. destruct tl; simpl in *; lia. }
    exists (x :: m). split_and!.
    + intros merged. rewrite mergeLoop_step by done. rewrite Hm.
      by rewrite <- app_assoc.
    + rewrite Hperm, concat_middle, concat_app. simpl.
      apply Permutation_middle.
    + intros Hs. apply Forall_app in Hs as [Hs1 Hs2].
      apply Forall_cons in Hs2 as [Hsx Hs2].
      constructor.
      * apply Hsorted. apply Forall_app. split; [done|].
        apply Forall_app. split; [|done].
        apply StronglySorted_inv in Hsx as [Htl _].
        destruct tl; simpl; [constructor | constructor; [exact Htl | constructor]].
      * rewrite Hperm, concat_middle. apply Forall_app. split; [|apply Forall_app; split].
        -- apply Forall_concat.
           apply Forall_forall. intros l Hl.
           pose proof (proj1 (Forall_forall _ _) Hpre l Hl) as H1.
           pose proof (proj1 (Forall_forall _ _) Hs1 l Hl) as H2.
           destruct l as [|y l]; [done|]. simpl in H1.
           apply stronglySorted_from_head; [done|lia].
        -- by apply StronglySorted_inv in Hsx as [_ Hall].
        -- apply Forall_concat.
           apply Forall_forall. intros l Hl.
           pose proof (proj1 (Forall_forall _ _) Hpost l Hl) as H1.
           pose proof (proj1 (Forall_forall _ _) Hs2 l Hl) as H2.
           destruct l as [|y l]; [done|]. simpl in H1.
           by apply stronglySorted_from_head.
Qed.

#[local] Instance TsLe_transitive : Transitive TsLe.
Proof. unfold TsLe. intros a b c. lia. Qed.

Lemma merge_unfold (events : list (list Event)) :
  merge events
  = mergeLoop (total events) (filter (fun l => nonEmpty l = true) events) [].
Proof.
  unfold merge. rewrite skipEmpty_spec. by destruct events.
Qed.

Lemma filter_nonEmpty_Forall (events : list (list Event)) :
  Forall (fun l => nonEmpty l = true) (filter (fun l => nonEmpty l = true) events).
Proof.
  apply Forall_forall. intros l Hl. by apply list_elem_of_filter in Hl as [? _].
Qed.

Lemma filter_nonEmpty_id (events : list (list Event)) :
  Forall (fun l => nonEmpty l = true) events →
  filter (fun l => nonEmpty l = true) events = events.
Proof.
  induction 1 as [|l events Hl _ IH]; [done|].
  by rewrite filter_cons_True, IH.
Qed.

Lemma filter_headLater (x : Event) (events : list (list Event)) :
  Forall (headLater x) events →
  Forall (hdAfter x) (filter (fun l => nonEmpty l = true) events).
Proof.
  intros H. apply Forall_forall. intros l Hl.
  apply list_elem_of_filter in Hl as [Hne Hl].
  pose proof (proj1 (Forall_forall _ _) H l Hl). by destruct l.
Qed.

Lemma filter_headNotEarlier (x : Event) (events : list (list Event)) :
  Forall (headNotEarlier x) events →
  Forall (hdNotBefore x) (filter (fun l => nonEmpty l = true) events).
Proof.
  intros H. apply Forall_forall. intros l Hl.
  apply list_elem_of_filter in Hl as [Hne Hl].
  pose proof (proj1 (Forall_forall _ _) H l Hl). by destruct l.
Qed.

Lemma filter_nonEmpty_middle (pre post : list (list Event)) (tl : list Event) :
  filter (fun l => nonEmpty l = true) (pre ++ tl :: post)
  = filter (fun l => nonEmpty l = true) pre
    ++ (if nonEmpty tl then [tl] else [])
    ++ filter (fun l => nonEmpty l = true) post.
Proof.
  rewrite filter_app. f_equal. destruct tl.
  - by rewrite filter_cons_False by (simpl; discriminate).
  - by rewrite filter_cons_True by done.
Qed.

(** C3: [merge] returns for every input; its result has as many events
    as the inputs together (it is a rearrangement of them), the empty
    inputs play no part, and the first event of the result is the head
    of the leftmost list among those whose head has the lowest
    timestamp, the rest being the merge of what is left.  When every
    input is non-decreasing in timestamp, so is the result. *)
Theorem merge_sorted_stable (events : list (list Event)) :
  Forall sortedTs events →
  ∃ merged,
    merge events = Ok merged
    ∧ length merged = total events
    ∧ merged ≡ₚ concat events
    ∧ sortedTs merged
    ∧ merge (filter (fun l => nonEmpty l = true) events) = Ok merged
    ∧ ∀ pre x tl post,
        events = pre ++ (x :: tl) :: post →
        Forall (headLater x) pre →
        Forall (headNotEarlier x) post →
        ∃ rest, merge (pre ++ tl :: post) = Ok rest ∧ merged = x :: rest.
Proof.
  intros Hsorted.
  destruct (mergeLoop_total (total events) (filter (fun l => nonEmpty l = true) events))
    as (m & Hm & Hperm & Hs).
  { apply filter_nonEmpty_Forall. }
  { by rewrite total_filter. }
  assert (Hpc : m ≡ₚ concat events).
  { rewrite Hperm. clear. induction events as [|l events IH]; [done|].
    destruct l.
    - by rewrite filter_cons_False by (simpl; discriminate).
    - rewrite filter_cons_True by done. simpl. by rewrite IH. }
  exists m. split_and!.
  - rewrite merge_unfold. apply (Hm []).
  - by rewrite Hpc, total_concat.
  - exact Hpc.
  - apply StronglySorted_Sorted, Hs.
    apply Forall_forall. intros l Hl. apply list_elem_of_filter in Hl as [_ Hl].
    apply Sorted_StronglySorted; [apply TsLe_transitive|].
    by apply (proj1 (Forall_forall _ _) Hsorted).
  - rewrite merge_unfold, total_filter.
    rewrite (filter_nonEmpty_id _ (filter_nonEmpty_Forall events)). apply (Hm []).
  - intros pre x tl post -> Hpre Hpost.
    destruct (mergeLoop_total (total (pre ++ tl :: post))
                (filter (fun l => nonEmpty l = true) (pre ++ tl :: post)))
      as (rest & Hrest & _ & _).
    { apply filter_nonEmpty_Forall. }
    { by rewrite total_filter. }
    exists rest. split; [rewrite merge_unfold; apply (Hrest [])|].
    specialize (Hm []).
    rewrite (filter_nonEmpty_middle pre post (x :: tl)) in Hm. simpl in Hm.
    replace (total (pre ++ (x :: tl) :: post)) with (S (total (pre ++ tl :: post))) in Hm
      by (rewrite !total_app; simpl; lia).
    rewrite mergeLoop_step in Hm
      by (by apply filter_headLater || by apply filter_headNotEarlier).
    rewrite <- filter_nonEmpty_middle, Hrest in Hm. simpl in Hm. congruence.
Qed.

(** Three inputs, the second one empty, with equal timestamps at the
    heads of the first and the third. *)
Definition mergeInput : list (list Event) :=
  [ [sampleCall "a" 100 1 0 "()" "0"; sampleCall "b" 100 3 0 "()" "0"];
    [];
    [sampleCall "c" 101 1 0 "()" "0"; sampleCall "d" 101 2 0 "()" "0"] ].

Lemma mergeInput_sorted : Forall sortedTs mergeInput.
Proof.
  unfold mergeInput, sortedTs, TsLe.
  repeat (constructor; simpl; try lia).
Qed.

Lemma merge_sorted_stable_witness :
  ∃ merged,
    merge mergeInput = Ok merged
    ∧ length merged = 4%nat
    ∧ sortedTs merged
    ∧ ∃ rest, merged = sampleCall "a" 100 1 0 "()" "0" :: rest.
Proof.
  destruct (merge_sorted_stable mergeInput mergeInput_sorted)
    as (merged & Hm & Hlen & _ & Hs & _ & Hsel).
  exists merged. split_and!; try done.
  destruct (Hsel [] (sampleCall "a" 100 1 0 "()" "0")
                 [sampleCall "b" 100 3 0 "()" "0"]
                 [[]; [sampleCall "c" 101 1 0 "()" "0"; sampleCall "d" 101 2 0 "()" "0"]])
    as (rest & _ & ->).
  - reflexivity.
  - constructor.
  - repeat (constructor; simpl; try lia).
  - by exists rest.
Defined.

Example merge_ties_favor_earlier_list :
  (m ← merge mergeInput; Ok (map Name m)) = Ok ["a"; "c"; "d"; "b"]%string.
Proof. vm_compute. reflexivity. Qed.

(** * Further properties of the code *)

(** ** Lines that match no grammar *)

(** A line of category "other" leaves the run as it would be without
    the line, wherever it stands in the log. *)
Theorem other_line_is_dropped
    (globalEventSubmatch : string → list string)
    (rangePreserved : gmap string Event → list Event)
    (rangeNames : gmap Z string → list (Z * string))
    (resourceMonitorEvents : list Event) (before after : list string) (line : string) :
  classify line = "other"%string →
  pipeline globalEventSubmatch rangePreserved rangeNames resourceMonitorEvents
           (before ++ line :: after)
  = pipeline globalEventSubmatch rangePreserved rangeNames resourceMonitorEvents
             (before ++ after).
Proof.
  intros H. unfold pipeline. rewrite !scanLines_app.
  destruct (scanLines scanInit before) as [st| | |]; simpl; try reflexivity.
  unfold scanLine. rewrite (NewEvent_other _ H). reflexivity.
Qed.

Lemma other_line_is_dropped_witness :
  pipeline (fun _ => []) valuesInOrder map_to_list []
           (["100 0.000010 getpid() = 100 <0.000002>"%string]
            ++ "strace: Process 101 attached"%string
            :: ["100 0.000040 +++ exited with 0 +++"%string])
  = pipeline (fun _ => []) valuesInOrder map_to_list []
             (["100 0.000010 getpid() = 100 <0.000002>"%string]
              ++ ["100 0.000040 +++ exited with 0 +++"%string]).
Proof.
  apply (other_line_is_dropped (fun _ => []) valuesInOrder map_to_list).
  vm_compute. reflexivity.
Defined.

(** ** The fields of a new event *)

Lemma getReGroups_pid (e : Event) (groups : list string) (g1 : string) :
  getReGroups e = Ok groups → groups !! 1%nat = Some g1 → hasMinus g1 = false.
Proof.
  unfold getReGroups, index, grammar.FindAllStringSubmatch, regexp.FindAllStringSubmatch.
  repeat match goal with
    | |- context [if String.eqb ?a ?b then _ else _] => destruct (String.eqb a b)
    end;
    try (intros [= <-]; by rewrite lookup_nil);
    match goal with
    | |- context [regexp.FindStringSubmatch ?r ?n ?s] =>
        destruct (regexp.FindStringSubmatch r n s) eqn:E; simpl; [discriminate|];
        intros [= <-]; rewrite <- E; apply group_no_minus; reflexivity
    end.
Qed.

Lemma convertID_nonneg (id : string) (v : Z) :
  hasMinus id = false → convertID id = Ok v → 0 ≤ v ≤ maxInt.
Proof.
  intros Hm. unfold convertID. destruct (strconv.Atoi id) as [i|] eqn:E; [|discriminate].
  intros [= <-]. split; [by eapply Atoi_nonneg|].
  apply Atoi_inInt in E. apply E.
Qed.

Lemma addFieldsByCat_fullTrace (e e' : Event) (groups : list string) :
  addFieldsByCat e groups = Ok e' → fullTrace e' = fullTrace e.
Proof.
  unfold addFieldsByCat.
  destruct (String.eqb (Cat e) "successful" || String.eqb (Cat e) "failed").
  { intros H. do 4 inv_bind H. by injection H as <-. }
  destruct (String.eqb (Cat e) "detached").
  { intros H. do 4 inv_bind H. by injection H as <-. }
  destruct (String.eqb (Cat e) "unfinished").
  { intros H. inv_bind H. by injection H as <-. }
  destruct (String.eqb (Cat e) "lifetime"); by intros [= <-].
Qed.

(** Whatever the line, an event that [NewEvent] returns has the
    category of the line, the same number as process id and thread id,
    and neither that number nor the timestamp is negative or beyond
    the range of [int]. *)
Theorem NewEvent_fields (line : string) (e : Event) :
  NewEvent line = Ok e →
  fullTrace e = line
  ∧ Cat e = classify line
  ∧ Pid e = Tid e
  ∧ 0 ≤ Pid e ≤ maxInt
  ∧ 0 ≤ Ts e ≤ maxInt.
Proof.
  intros H.
  pose proof (NewEvent_spec _ _ H) as (Hc & Hp & Hts & _).
  pose proof (NewEvent_Ts_nonneg _ _ H) as Hts0.
  assert (Hfull : fullTrace e = line).
  { revert H. unfold NewEvent, addFields. intros H. inv_bind H.
    destruct a as [|g0 gs]; [by injection H as <-|].
    simpl in H. do 7 inv_bind H.
    by apply addFieldsByCat_fullTrace in H. }
  assert (Hpid : 0 ≤ Pid e ≤ maxInt).
  { revert H. unfold NewEvent, addFields. intros H. inv_bind H.
    destruct a as [|g0 gs]; [injection H as <-; simpl; unfold maxInt; lia|].
    simpl in H. do 7 inv_bind H.
    apply addFieldsByCat_spec in H as (_ & Hpid & _). simpl in Hpid. rewrite Hpid.
    eapply convertID_nonneg; [|exact Ha4].
    eapply getReGroups_pid; [exact Ha|].
    unfold index in Ha3. destruct (_ !! _) eqn:E; [|discriminate]. congruence. }
  unfold inInt in Hts. repeat split; try done; lia.
Qed.

Lemma NewEvent_fields_witness :
  ∃ e, NewEvent "100 0.000001 clone(CLONE_THREAD, ...) = 101 <0.000010>" = Ok e
       ∧ Cat e = "successful"%string ∧ Pid e = Tid e ∧ 0 ≤ Pid e ≤ maxInt ∧ 0 ≤ Ts e ≤ maxInt.
Proof.
  eexists. split; [vm_compute; reflexivity|].
  match goal with
  | |- context [Cat ?e] =>
      destruct (NewEvent_fields "100 0.000001 clone(CLONE_THREAD, ...) = 101 <0.000010>" e)
        as (_ & Hc & Hp & Hpid & Hts)
  end.
  - vm_compute. reflexivity.
  - split_and!; try done.
Defined.

(** ** What the scanning loop emits *)

(** An emitted event, and an entry of the pending table. *)
Definition goodEmitted (e : Event) : Prop :=
  Pid e = Tid e ∧ 0 ≤ Ts e
  ∧ Cat e ≠ "other"%string ∧ Cat e ≠ "unfinished"%string.
Definition goodPending (p : Event) : Prop :=
  Pid p = Tid p ∧ 0 ≤ Ts p ∧ Cat p = "unfinished"%string.

Definition scanFields (st : ScanState) : Prop :=
  Forall goodEmitted (syscallEvents st)
  ∧ map_Forall (fun _ p => goodPending p) (preserved st).

Lemma markAlive_fields (st : ScanState) (e : Event) :
  Pid e = Tid e → 0 ≤ Ts e →
  Forall goodEmitted (syscallEvents st) →
  Forall goodEmitted (syscallEvents (markAlive st e)).
Proof.
  intros Hp Ht H. unfold markAlive. destruct (negb _); [|done]. simpl.
  apply Forall_app. split; [done|]. repeat constructor; done.
Qed.

Lemma scanLine_fields (st st' : ScanState) (line : string) :
  scanFields st → scanLine st line = Ok st' → scanFields st'.
Proof.
  intros [Hev Hpend] H. unfold scanLine in H. inv_bind H.
  pose proof (NewEvent_spec _ _ Ha) as (_ & Hp & _).
  pose proof (NewEvent_Ts_nonneg _ _ Ha) as Hts.
  pose proof (markAlive_fields st a Hp Hts Hev) as Hev'.
  apply scanEvent_inv in H as [[_ ->]|[[Hc ->]|[(Hc & p & Hk & ->)|(Ho & Hu & Hd & ->)]]].
  - done.
  - split; simpl; [done|]. by apply map_Forall_insert_2.
  - split; simpl.
    + apply Forall_app. split; [done|]. repeat constructor; simpl; try done.
      * by apply (Hpend _ _ Hk).
      * by rewrite Hc.
      * by rewrite Hc.
    + by apply map_Forall_delete.
  - split; simpl; [|done].
    apply Forall_app. split; [done|]. by repeat constructor.
Qed.

Lemma scanLines_fields (lines : list string) (st st' : ScanState) :
  scanFields st → scanLines st lines = Ok st' → scanFields st'.
Proof.
  revert st. induction lines as [|l lines IH]; intros st Hst H; simpl in H.
  - by injection H as <-.
  - inv_bind H. eapply IH; [|exact H]. by eapply scanLine_fields.
Qed.

Lemma range_values (rangePreserved : gmap string Event → list Event)
    (m : gmap string Event) (p : Event) :
  (∀ m, rangePreserved m ≡ₚ (map_to_list m).*2) →
  p ∈ rangePreserved m → ∃ k, m !! k = Some p.
Proof.
  intros Hr Hp. rewrite Hr in Hp.
  apply list_elem_of_fmap in Hp as ([k p'] & -> & Hp).
  apply elem_of_map_to_list in Hp. by exists k.
Qed.

(** After the scan of any log and the flush of the pending table, every
    event has its thread id as process id and a timestamp that is not
    negative, none has the category "other", and an event of category
    "unfinished" is there only as an instant event ([ph] "i"). *)
Theorem scanned_events_fields
    (rangePreserved : gmap string Event → list Event)
    (lines : list string) (st : ScanState) :
  (∀ m, rangePreserved m ≡ₚ (map_to_list m).*2) →
  scanLines scanInit lines = Ok st →
  Forall (fun e => Pid e = Tid e ∧ 0 ≤ Ts e ∧ Cat e ≠ "other"%string
                   ∧ (Cat e = "unfinished"%string → Ph e = "i"%string))
         (flushPreserved (syscallEvents st) (rangePreserved (preserved st))).
Proof.
  intros Hr H.
  assert (Hinit : scanFields scanInit).
  { split; [constructor|]. apply map_Forall_empty. }
  destruct (scanLines_fields _ _ _ Hinit H) as [Hev Hpend].
  unfold flushPreserved. apply Forall_app. split.
  - eapply Forall_impl; [exact Hev|]. intros e (? & ? & ? & ?). done.
  - apply Forall_fmap, Forall_forall. intros p Hp.
    destruct (range_values _ _ _ Hr Hp) as [k Hk].
    destruct (Hpend _ _ Hk) as (? & ? & Hc). simpl.
    split_and!; try done. by rewrite Hc.
Qed.

Lemma scanned_events_fields_witness :
  ∃ st,
    scanLines scanInit ["101 0.000020 read(3,  <unfinished ...>"%string;
                        "100 0.000025 getpid() = 100 <0.000002>"%string] = Ok st
    ∧ Forall (fun e => Pid e = Tid e ∧ 0 ≤ Ts e ∧ Cat e ≠ "other"%string
                       ∧ (Cat e = "unfinished"%string → Ph e = "i"%string))
             (flushPreserved (syscallEvents st) (valuesInOrder (preserved st))).
Proof.
  eexists. split; [vm_compute; reflexivity|].
  apply (scanned_events_fields valuesInOrder
           ["101 0.000020 read(3,  <unfinished ...>"%string;
            "100 0.000025 getpid() = 100 <0.000002>"%string]).
  - exact valuesInOrder_values.
  - vm_compute. reflexivity.
Defined.

(** ** The lifetime event of a thread *)

(** The first event of every thread in the list is a [lifetime] Begin
    event. *)
Definition beginsFirst (evs : list Event) : Prop :=
  ∀ pre e post,
    evs = pre ++ e :: post →
    Forall (fun x => Tid x ≠ Tid e) pre →
    Name e = "lifetime"%string ∧ Cat e = "lifetime"%string ∧ Ph e = "B"%string.

Lemma snoc_split (evs pre post : list Event) (b e : Event) :
  evs ++ [b] = pre ++ e :: post →
  (post = [] ∧ evs = pre ∧ b = e)
  ∨ ∃ post', post = post' ++ [b] ∧ evs = pre ++ e :: post'.
Proof.
  intros H. destruct post as [|y post _] using rev_ind.
  - left. apply app_inj_tail in H as [-> ->]. done.
  - right. exists post.
    change (pre ++ e :: post ++ [y]) with (pre ++ (e :: post) ++ [y]) in H.
    rewrite app_assoc in H. apply app_inj_tail in H as [-> ->]. done.
Qed.

Lemma beginsFirst_snoc_begin (evs : list Event) (e : Event) :
  beginsFirst evs → beginsFirst (evs ++ [lifetimeBegin e]).
Proof.
  intros H pre x post Heq Hpre.
  apply snoc_split in Heq as [(_ & _ & <-)|(post' & _ & ->)]; [done|].
  by eapply H.
Qed.

Lemma beginsFirst_snoc_seen (evs : list Event) (e : Event) :
  beginsFirst evs → (∃ x, x ∈ evs ∧ Tid x = Tid e) → beginsFirst (evs ++ [e]).
Proof.
  intros H (x & Hx & Ht) pre y post Heq Hpre.
  apply snoc_split in Heq as [(_ & -> & <-)|(post' & _ & ->)]; [|by eapply H].
  exfalso. by apply (proj1 (Forall_forall _ _) Hpre x Hx).
Qed.

Definition scanLifetimes (st : ScanState) : Prop :=
  beginsFirst (syscallEvents st)
  ∧ (∀ t, liveThreads st !! t = Some true → ∃ x, x ∈ syscallEvents st ∧ Tid x = t)
  ∧ map_Forall (fun _ p => liveThreads st !! Tid p = Some true) (preserved st).

Lemma markAlive_lifetimes (st : ScanState) (e : Event) :
  scanLifetimes st → scanLifetimes (markAlive st e).
Proof.
  intros (Hb & Hseen & Hpend). unfold markAlive.
  destruct (liveThreads st !! Tid e) as [[|]|] eqn:E; simpl; [done| |];
    (split_and!; simpl;
     [ by apply beginsFirst_snoc_begin
     | intros t Ht; destruct (decide (Tid e = t)) as [<-|Hne];
       [ exists (lifetimeBegin e); split; [apply elem_of_app; right; by left|done]
       | rewrite lookup_insert_ne in Ht by done;
         destruct (Hseen t Ht) as (x & Hx & Hxt); exists x;
         split; [apply elem_of_app; by left|done] ]
     | intros k p Hk; destruct (decide (Tid e = Tid p)) as [->|Hne];
       [ apply lookup_insert_eq
       | rewrite lookup_insert_ne by done; by apply (Hpend k p) ] ]).
Qed.

Lemma scanLifetimes_append (st : ScanState) (e : Event) (pending : gmap string Event) :
  scanLifetimes st →
  liveThreads st !! Tid e = Some true →
  map_Forall (fun _ p => liveThreads st !! Tid p = Some true) pending →
  scanLifetimes (mkScan (syscallEvents st ++ [e]) pending (liveThreads st)).
Proof.
  intros (Hb & Hseen & _) He Hp. split_and!; simpl.
  - apply beginsFirst_snoc_seen; [done|]. by apply Hseen.
  - intros t Ht. destruct (Hseen t Ht) as (x & Hx & Hxt).
    exists x. split; [apply elem_of_app; by left|done].
  - done.
Qed.

Lemma scanLine_lifetimes (st st' : ScanState) (line : string) :
  scanLifetimes st → scanLine st line = Ok st' → scanLifetimes st'.
Proof.
  intros Hst H. unfold scanLine in H. inv_bind H.
  pose proof (markAlive_lifetimes st a Hst) as Hm.
  pose proof (markAlive_alive st a) as Ha'.
  apply scanEvent_inv in H as [[_ ->]|[[Hc ->]|[(Hc & p & Hk & ->)|(Ho & Hu & Hd & ->)]]].
  - done.
  - destruct Hm as (Hb & Hseen & Hpend). split_and!; simpl; try done.
    apply map_Forall_insert_2; [done|by rewrite markAlive_preserved in Hpend].
  - apply scanLifetimes_append; simpl; try done.
    apply map_Forall_delete. destruct Hm as (_ & _ & Hpend).
    by rewrite markAlive_preserved in Hpend.
  - destruct Hm as (Hb & Hseen & Hpend).
    apply (scanLifetimes_append (markAlive st a)); try done.
    by rewrite markAlive_preserved in Hpend.
Qed.

Lemma scanLines_lifetimes (lines : list string) (st st' : ScanState) :
  scanLifetimes st → scanLines st lines = Ok st' → scanLifetimes st'.
Proof.
  revert st. induction lines as [|l lines IH]; intros st Hst H; simpl in H.
  - by injection H as <-.
  - inv_bind H. eapply IH; [|exact H]. by eapply scanLine_lifetimes.
Qed.

Lemma beginsFirst_flush (evs ps : list Event) :
  beginsFirst evs →
  Forall (fun p => ∃ x, x ∈ evs ∧ Tid x = Tid p) ps →
  beginsFirst (flushPreserved evs ps).
Proof.
  unfold flushPreserved. intros Hb Hps. revert evs Hb Hps.
  induction ps as [|p ps IH]; intros evs Hb Hps; simpl.
  - by rewrite app_nil_r.
  - apply Forall_cons in Hps as [(x & Hx & Hxt) Hps].
    change (evs ++ setPh p "i" :: map (fun p0 => setPh p0 "i") ps)
      with (evs ++ [setPh p "i"] ++ map (fun p0 => setPh p0 "i") ps).
    rewrite app_assoc. apply IH.
    + apply beginsFirst_snoc_seen; [done|]. by exists x.
    + eapply Forall_impl; [exact Hps|]. intros q (y & Hy & Hyt).
      exists y. split; [apply elem_of_app; by left|done].
Qed.

(** In the list the scanning loop hands on (the pending entries
    flushed), the first event of every thread is the [lifetime] Begin
    event made when the thread was first seen. *)
Theorem lifetime_begins_each_thread
    (rangePreserved : gmap string Event → list Event)
    (lines : list string) (st : ScanState) :
  (∀ m, rangePreserved m ≡ₚ (map_to_list m).*2) →
  scanLines scanInit lines = Ok st →
  beginsFirst (flushPreserved (syscallEvents st) (rangePreserved (preserved st))).
Proof.
  intros Hr H.
  assert (Hinit : scanLifetimes scanInit).
  { split_and!.
    - intros pre e post Heq. by destruct pre.
    - intros t Ht. simpl in Ht. by rewrite lookup_empty in Ht.
    - apply map_Forall_empty. }
  destruct (scanLines_lifetimes _ _ _ Hinit H) as (Hb & Hseen & Hpend).
  apply beginsFirst_flush; [done|].
  apply Forall_forall. intros p Hp.
  destruct (range_values _ _ _ Hr Hp) as [k Hk].
  apply Hseen. by apply (Hpend k p).
Qed.

Lemma lifetime_begins_each_thread_witness :
  ∃ st,
    scanLines scanInit ["101 0.000020 read(3,  <unfinished ...>"%string;
                        "100 0.000025 getpid() = 100 <0.000002>"%string] = Ok st
    ∧ beginsFirst (flushPreserved (syscallEvents st) (valuesInOrder (preserved st))).
Proof.
  eexists. split; [vm_compute; reflexivity|].
  apply (lifetime_begins_each_thread valuesInOrder
           ["101 0.000020 read(3,  <unfinished ...>"%string;
            "100 0.000025 getpid() = 100 <0.000002>"%string]).
  - exact valuesInOrder_values.
  - vm_compute. reflexivity.
Defined.

(** ** Calls that are never resumed *)

(** An "unfinished" line that no later line with the same key resumes
    or replaces stays in the pending table to the end of the scan, and
    the flush puts it, as an instant event, behind every event of the
    log. *)
Theorem unresumed_call_becomes_instant
    (rangePreserved : gmap string Event → list Event)
    (before after : list string) (lu : string) (u : Event) (st : ScanState) :
  (∀ m, rangePreserved m ≡ₚ (map_to_list m).*2) →
  NewEvent lu = Ok u → Cat u = "unfinished"%string →
  (∀ l m, l ∈ after → NewEvent l = Ok m →
          Cat m = "unfinished"%string ∨ Cat m = "detached"%string →
          preservedKey m ≠ preservedKey u) →
  scanLines scanInit (before ++ lu :: after) = Ok st →
  preserved st !! preservedKey u = Some u
  ∧ ∃ ps1 ps2,
      flushPreserved (syscallEvents st) (rangePreserved (preserved st))
      = syscallEvents st ++ ps1 ++ setPh u "i" :: ps2.
Proof.
  intros Hr Hu Hc Hafter H.
  rewrite scanLines_app in H. inv_bind H. simpl in H. inv_bind H.
  unfold scanLine in Ha0. rewrite Hu in Ha0. simpl in Ha0.
  apply scanEvent_inv in Ha0 as [[Hc' _]|[[_ ->]|[(Hc' & _)|(_ & Hc' & _)]]];
    try congruence.
  destruct (scanLines_between after _ st (preservedKey u) 0 Hafter H) as [Hp _].
  simpl in Hp. rewrite lookup_insert_eq in Hp.
  split; [done|].
  assert (Hin : u ∈ rangePreserved (preserved st)).
  { rewrite Hr. apply list_elem_of_fmap. exists (preservedKey u, u).
    split; [done|]. by apply elem_of_map_to_list. }
  apply list_elem_of_split in Hin as (l1 & l2 & Heq).
  exists (map (fun p => setPh p "i") l1), (map (fun p => setPh p "i") l2).
  unfold flushPreserved. rewrite Heq, map_app. reflexivity.
Qed.

Lemma unresumed_call_becomes_instant_witness :
  ∃ st u ps1 ps2,
    scanLines scanInit
      (["100 0.000010 getpid() = 100 <0.000002>"%string]
       ++ "101 0.000020 read(3,  <unfinished ...>"%string
       :: ["100 0.000040 +++ exited with 0 +++"%string]) = Ok st
    ∧ Ts u = 20 ∧ Name u = "read"%string
    ∧ flushPreserved (syscallEvents st) (valuesInOrder (preserved st))
      = syscallEvents st ++ ps1 ++ setPh u "i" :: ps2.
Proof.
  eexists _, (mkEvent "101 0.000020 read(3,  <unfinished ...>" "read" "unfinished" "B"
                      101 101 20 0 0 EmptyString
                      (mkArgs EmptyString (S754_zero false) 0 "(3,  " EmptyString EmptyString 0)).
  edestruct (unresumed_call_becomes_instant valuesInOrder
              ["100 0.000010 getpid() = 100 <0.000002>"%string]
              ["100 0.000040 +++ exited with 0 +++"%string]
              "101 0.000020 read(3,  <unfinished ...>")
    as (_ & ps1 & ps2 & H).
  - exact valuesInOrder_values.
  - vm_compute. reflexivity.
  - reflexivity.
  - intros l m Hl Hm Hc. apply list_elem_of_singleton in Hl. subst l.
    vm_compute in Hm. injection Hm as <-. simpl in Hc. destruct Hc; discriminate.
  - vm_compute. reflexivity.
  - exists ps1, ps2. split_and!; [vm_compute; reflexivity|done|done|exact H].
Defined.

(** A second "unfinished" line with the pid and the name of a pending
    one takes its place in the table: the first call is in no list and
    in no table any more, only the [lifetime] event of its thread may
    have been emitted. *)
Theorem repeated_unfinished_replaces
    (st st1 st2 : ScanState) (lu1 lu2 : string) (u1 u2 : Event) :
  NewEvent lu1 = Ok u1 → Cat u1 = "unfinished"%string →
  NewEvent lu2 = Ok u2 → Cat u2 = "unfinished"%string →
  Pid u1 = Pid u2 → Name u1 = Name u2 →
  scanLine st lu1 = Ok st1 →
  scanLine st1 lu2 = Ok st2 →
  preserved st2 = <[preservedKey u2 := u2]> (preserved st)
  ∧ syscallEvents st2
    = syscallEvents st
      ++ (if default false (liveThreads st !! Tid u1) then [] else [lifetimeBegin u1]).
Proof.
  intros Hu1 Hc1 Hu2 Hc2 Hpid Hname H1 H2.
  assert (Hkey : preservedKey u1 = preservedKey u2).
  { unfold preservedKey. by rewrite Hpid, Hname. }
  pose proof (NewEvent_spec _ _ Hu1) as (_ & Hpt1 & _).
  pose proof (NewEvent_spec _ _ Hu2) as (_ & Hpt2 & _).
  unfold scanLine in H1, H2. rewrite Hu1 in H1. rewrite Hu2 in H2. simpl in H1, H2.
  apply scanEvent_inv in H1 as [[Hc _]|[[_ ->]|[(Hc & _)|(_ & Hc & _)]]]; try congruence.
  apply scanEvent_inv in H2 as [[Hc _]|[[_ ->]|[(Hc & _)|(_ & Hc & _)]]]; try congruence.
  assert (Halive : liveThreads (markAlive st u1) !! Tid u2 = Some true).
  { replace (Tid u2) with (Tid u1) by congruence. apply markAlive_alive. }
  rewrite markAlive_already by exact Halive. simpl.
  split.
  - rewrite Hkey. apply insert_insert_eq.
  - unfold markAlive. destruct (default false _); simpl; [|done].
    by rewrite app_nil_r.
Qed.

Lemma repeated_unfinished_replaces_witness :
  ∃ st1 st2 u1 u2,
    scanLine scanInit "101 0.000020 read(3,  <unfinished ...>" = Ok st1
    ∧ scanLine st1 "101 0.000030 read(4,  <unfinished ...>" = Ok st2
    ∧ preserved st2 = <[preservedKey u2 := u2]> (preserved scanInit)
    ∧ syscallEvents st2
      = syscallEvents scanInit
        ++ (if default false (liveThreads scanInit !! Tid u1) then []
            else [lifetimeBegin u1]).
Proof.
  eexists _, _, _, _.
  split; [vm_compute; reflexivity|].
  split; [vm_compute; reflexivity|].
  eapply (repeated_unfinished_replaces _ _ _
            "101 0.000020 read(3,  <unfinished ...>"
            "101 0.000030 read(4,  <unfinished ...>").
  - vm_compute. reflexivity.
  - reflexivity.
  - vm_compute. reflexivity.
  - reflexivity.
  - reflexivity.
  - reflexivity.
  - vm_compute. reflexivity.
  - vm_compute. reflexivity.
Defined.

(** ** More on the ancestry passes *)

Lemma ancestryPass_same (evs : list Event) (processThreads : gmap Z Z) :
  Forall2 sameButPid evs (ancestryPass processThreads evs).2.
Proof.
  revert processThreads. induction evs as [|e evs IH]; intros processThreads; simpl.
  - constructor.
  - specialize (IH (recordChild processThreads (rewritePid processThreads e))).
    destruct (ancestryPass _ evs) as [pt rest]. simpl in *.
    constructor; [apply rewritePid_same|done].
Qed.

(** The seeding and the two passes panic on the empty list only; on any
    other list they return the events in the same number and order,
    each one unchanged but for its process id. *)
Theorem reconstruct_changes_only_pid (evs : list Event) :
  (evs = [] → reconstruct evs = Panic)
  ∧ (evs ≠ [] →
     ∃ processThreads evs',
       reconstruct evs = Ok (processThreads, evs')
       ∧ length evs' = length evs
       ∧ Forall2 sameButPid evs evs').
Proof.
  split; [by intros ->|].
  intros Hne. destruct evs as [|first rest]; [done|].
  unfold reconstruct. cbn [index lookup list_lookup mbind result_bind].
  pose proof (ancestryPass_same (first :: rest) (<[Tid first := Pid first]> ∅)) as H1.
  destruct (ancestryPass (<[Tid first := Pid first]> ∅) (first :: rest)) as [pt1 evs1].
  pose proof (ancestryPass_same evs1 pt1) as H2.
  destruct (ancestryPass pt1 evs1) as [pt2 evs2]. simpl in *.
  exists pt2, evs2. split; [done|].
  pose proof (Forall2_sameButPid_trans _ _ _ H1 H2) as H.
  split; [by rewrite <- (Forall2_length _ _ _ H)|done].
Qed.

Lemma reconstruct_changes_only_pid_witness :
  ∃ processThreads evs',
    reconstruct forwardReference = Ok (processThreads, evs')
    ∧ length evs' = 5%nat
    ∧ Forall2 sameButPid forwardReference evs'.
Proof.
  destruct (reconstruct_changes_only_pid forwardReference) as [_ H].
  destruct H as (pt & evs' & H1 & H2 & H3); [discriminate|].
  exists pt, evs'. done.
Defined.
